(** * Unit of work over AsyncLocalStorage: a shallow embedding

    The development follows the TypeScript sources

      - core/services/unit-of-work.service.ts        (UnitOfWorkService)
      - core/interceptors/transaction-storage.interceptor.ts
      - order/repositories/order.repository.ts      (OrderRepository)
      - order/services/order.service.ts             (OrderService)
      - order/controllers/order.controller.ts       (OrderController)

    Asynchronous code is embedded in a resumption monad: a computation runs
    on the shared world until it either settles or reaches an [await], where
    it hands the world back to the event loop together with its continuation.
    Node's AsyncLocalStorage, TypeORM's connection and entity managers, the
    JavaScript [Map] and [Math.random] are the primitives of that monad. *)

From Stdlib Require Import ZArith QArith Qround List Lia.
From stdpp Require Import base option list gmap strings.

Set Implicit Arguments.

Local Open Scope nat_scope.

(** ** Values of the domain *)

(** Modelled from the spec: the entity classes order/models/item.model.ts and
    order/models/order.model.ts are not part of the sources at hand.  An Order
    owns zero or more Items; an Item refers to its Order ([item.order], kept
    here as the foreign key, the primary key of the owning order).  A primary
    key is [None] until the persistence engine assigns one. *)
Record Item : Type := mkItem {
  item_id : option nat;
  item_name : string;
  item_quantity : Z;
  item_order : option nat
}.

Record Order : Type := mkOrder {
  order_id : option nat;
  order_date : string;
  order_description : string;
  order_items : list Item
}.

(** Modelled from the spec: order/dto/create-order-request.dto.ts is not part
    of the sources at hand; its shape is the JSON body of the README. *)
Record CreateOrderItemDto : Type := mkItemDto {
  dto_name : string;
  dto_quantity : Z
}.

Record CreateOrderRequestDto : Type := mkOrderDto {
  dto_date : string;
  dto_description : string;
  dto_items : list CreateOrderItemDto
}.

Inductive Kind : Type := KOrder | KItem.

Inductive Row : Type :=
| ROrder (o : Order)
| RItem (i : Item).

Definition row_kind (r : Row) : Kind :=
  match r with ROrder _ => KOrder | RItem _ => KItem end.

Definition row_id (r : Row) : option nat :=
  match r with ROrder o => order_id o | RItem i => item_id i end.

(** What TypeORM needs to know of an entity class to [save] an instance:
    its table, its row, and how the generated primary key is put in. *)
Class Entity (A : Type) : Type := {
  entity_kind : Kind;
  to_row : A -> Row;
  with_id : nat -> A -> A;
  entity_row_kind : forall n a, row_kind (to_row (with_id n a)) = entity_kind;
  entity_row_id : forall n a, row_id (to_row (with_id n a)) = Some n
}.

#[export] Instance Order_Entity : Entity Order := {|
  entity_kind := KOrder;
  to_row := ROrder;
  with_id := fun n o =>
    mkOrder (Some n) (order_date o) (order_description o) (order_items o);
  entity_row_kind := fun _ _ => eq_refl;
  entity_row_id := fun _ _ => eq_refl
|}.

#[export] Instance Item_Entity : Entity Item := {|
  entity_kind := KItem;
  to_row := RItem;
  with_id := fun n i =>
    mkItem (Some n) (item_name i) (item_quantity i) (item_order i);
  entity_row_kind := fun _ _ => eq_refl;
  entity_row_id := fun _ _ => eq_refl
|}.

(** An [EntityManager] is either the manager of a query runner that holds a
    transaction, or a manager made by [connection.createEntityManager()],
    which works outside any transaction. *)
Inductive EntityManager : Type :=
| TxManager (tx : nat)
| DefaultManager (n : nat).

Inductive error : Type :=
| HttpException (message : string) (status : Z)
| EntityNotFound (kind : Kind) (id : nat)
| TypeError (message : string)
| TransactionNotStarted
| TransactionAlreadyStarted
| QueryRunnerAlreadyReleased
| UserError (payload : string).

Definition is_not_found (e : error) : bool :=
  match e with EntityNotFound _ _ => true | _ => false end.

Inductive outcome (A : Type) : Type :=
| Ok (a : A)
| Err (e : error).
Arguments Ok {A} a.
Arguments Err {A} e.

(** ** The world *)

(** State machine of one transaction: Idle -> Open -> Committed | RolledBack. *)
Inductive TxStatus : Type := Idle | Open | Committed | RolledBack.

(** A query runner: the state of its transaction, the rows written through
    its manager and not yet committed (oldest first), and the logical
    execution that created it. *)
Record Transaction : Type := mkTx {
  tx_status : TxStatus;
  tx_rows : list Row;
  tx_owner : nat
}.

(** The persistence engine: the committed rows, the auto-increment counters
    of the two tables, the query runners ever created, and the number of
    round trips made so far. *)
Record Database : Type := mkDb {
  rows : list Row;
  next_order_id : nat;
  next_item_id : nat;
  txs : list Transaction;
  queries : nat
}.

(** A JavaScript [Map<string, EntityManager>] on the heap, with the logical
    execution that allocated it. *)
Record MapObject : Type := mkMap {
  map_creator : nat;
  map_entries : gmap string EntityManager
}.

Record world : Type := mkWorld {
  db : Database;
  heap : list MapObject;
  (** the store of the async resource that is executing: what
      [asyncLocalStorage.getStore()] returns *)
  als_store : option nat;
  (** number of managers made by [createEntityManager] *)
  managers : nat;
  (** [Math.random]: the sequence of results and how many were drawn *)
  rng : nat -> Q;
  draws : nat;
  (** the logical execution (request) the event loop is running *)
  running : nat;
  (** the managers [getManager] handed out, with the execution that asked *)
  seen : list (nat * EntityManager)
}.

Definition set_db (d : Database) (w : world) : world :=
  mkWorld d (heap w) (als_store w) (managers w) (rng w) (draws w) (running w) (seen w).
Definition set_heap (h : list MapObject) (w : world) : world :=
  mkWorld (db w) h (als_store w) (managers w) (rng w) (draws w) (running w) (seen w).
Definition set_store (s : option nat) (w : world) : world :=
  mkWorld (db w) (heap w) s (managers w) (rng w) (draws w) (running w) (seen w).
Definition set_managers (n : nat) (w : world) : world :=
  mkWorld (db w) (heap w) (als_store w) n (rng w) (draws w) (running w) (seen w).
Definition set_draws (n : nat) (w : world) : world :=
  mkWorld (db w) (heap w) (als_store w) (managers w) (rng w) n (running w) (seen w).
Definition set_running (t : nat) (w : world) : world :=
  mkWorld (db w) (heap w) (als_store w) (managers w) (rng w) (draws w) t (seen w).
Definition set_seen (l : list (nat * EntityManager)) (w : world) : world :=
  mkWorld (db w) (heap w) (als_store w) (managers w) (rng w) (draws w) (running w) l.

Definition set_rows (l : list Row) (d : Database) : Database :=
  mkDb l (next_order_id d) (next_item_id d) (txs d) (queries d).
Definition set_txs (l : list Transaction) (d : Database) : Database :=
  mkDb (rows d) (next_order_id d) (next_item_id d) l (queries d).
Definition tick (d : Database) : Database :=
  mkDb (rows d) (next_order_id d) (next_item_id d) (txs d) (S (queries d)).

Definition next_id (k : Kind) (d : Database) : nat :=
  match k with KOrder => next_order_id d | KItem => next_item_id d end.

Definition bump_id (k : Kind) (d : Database) : Database :=
  match k with
  | KOrder => mkDb (rows d) (S (next_order_id d)) (next_item_id d) (txs d) (queries d)
  | KItem => mkDb (rows d) (next_order_id d) (S (next_item_id d)) (txs d) (queries d)
  end.

Definition tx_state (x : nat) (w : world) : option TxStatus :=
  tx_status <$> (txs (db w) !! x).

Definition tx_written (x : nat) (w : world) : list Row :=
  from_option tx_rows [] (txs (db w) !! x).

(** ** The resumption monad *)

(** A computation has either settled, or is suspended at an [await]: it has
    given the world back and waits to be resumed on the world of that time. *)
Inductive res (A : Type) : Type :=
| Done (o : outcome A) (w : world)
| Paused (w : world) (k : world -> res A).
Arguments Done {A} o w.
Arguments Paused {A} w k.

Definition M (A : Type) : Type := world -> res A.

Definition ret {A} (a : A) : M A := fun w => Done (Ok a) w.
Definition throw {A} (e : error) : M A := fun w => Done (Err e) w.

Fixpoint bind_res {A B} (r : res A) (f : A -> M B) : res B :=
  match r with
  | Done (Ok a) w => f a w
  | Done (Err e) w => Done (Err e) w
  | Paused w k => Paused w (fun w' => bind_res (k w') f)
  end.

Definition bind {A B} (m : M A) (f : A -> M B) : M B :=
  fun w => bind_res (m w) f.

(** [try { m } catch (e) { h e }] *)
Fixpoint catch_res {A} (r : res A) (h : error -> M A) : res A :=
  match r with
  | Done (Ok a) w => Done (Ok a) w
  | Done (Err e) w => h e w
  | Paused w k => Paused w (fun w' => catch_res (k w') h)
  end.

Definition try_catch {A} (m : M A) (h : error -> M A) : M A :=
  fun w => catch_res (m w) h.

Definition world_of {A} (r : res A) : world :=
  match r with Done _ w => w | Paused w _ => w end.

(** The caller of [await p] is resumed once [p] has settled, in a later turn
    of the event loop, and its async resource carries the store [s] that was
    current when the [await] was evaluated. *)
Fixpoint resume_then {A} (s : option nat) (r : res A) : res A :=
  match r with
  | Done o w => Paused w (fun w' => Done o (set_store s w'))
  | Paused w k => Paused w (fun w' => resume_then s (k w'))
  end.

(** [await m]: [m] is called and runs up to its first suspension; the caller
    then suspends, capturing the store current at that moment. *)
Definition await {A} (m : M A) : M A :=
  fun w => let r := m w in resume_then (als_store (world_of r)) r.

(** Run one logical execution with nothing else scheduled in between. *)
Fixpoint run_alone {A} (r : res A) : outcome A * world :=
  match r with
  | Done o w => (o, w)
  | Paused w k => run_alone (k w)
  end.

Declare Scope uow_scope.
Delimit Scope uow_scope with uow.
Notation "'let*' x ':=' m 'in' k" := (bind m (fun x => k))
  (at level 10, x pattern, m at level 100, k at level 200) : uow_scope.
Notation "m ';;' k" := (bind m (fun _ => k))
  (at level 100, k at level 200, right associativity) : uow_scope.
Local Open Scope uow_scope.

(** ** Primitives of the runtime and of the libraries *)

(** *** AsyncLocalStorage (Node, async_hooks) *)

Definition als_getStore : M (option nat) :=
  fun w => Done (Ok (als_store w)) w.

(** [asyncLocalStorage.run(store, callback)]: the callback is entered with
    [store] current; when the call returns, which for an async callback is
    at its first [await], the previous store is put back.  The continuation
    of the callback keeps [store] through the resources of its awaits. *)
Definition als_run {A} (store : nat) (callback : M A) : M A :=
  fun w =>
    match callback (set_store (Some store) w) with
    | Done o w' => Done o (set_store (als_store w) w')
    | Paused w' k => Paused (set_store (als_store w) w') k
    end.

(** *** Map *)

Definition map_lookup (l : nat) (key : string) (w : world) : option EntityManager :=
  heap w !! l ≫= fun o => map_entries o !! key.

Definition new_Map : M nat :=
  fun w => Done (Ok (length (heap w)))
                (set_heap (heap w ++ [mkMap (running w) ∅]) w).

Definition Map_has (l : nat) (key : string) : M bool :=
  fun w => Done (Ok (match map_lookup l key w with Some _ => true | None => false end)) w.

(** [None] is JavaScript's [undefined]. *)
Definition Map_get (l : nat) (key : string) : M (option EntityManager) :=
  fun w => Done (Ok (map_lookup l key w)) w.

Definition put (key : string) (v : EntityManager) (o : MapObject) : MapObject :=
  mkMap (map_creator o) (<[key := v]> (map_entries o)).

Definition Map_set (l : nat) (key : string) (v : EntityManager) : M unit :=
  fun w => Done (Ok tt) (set_heap (alter (put key v) l (heap w)) w).

(** *** Math.random *)

Definition Math_random : M Q :=
  fun w => Done (Ok (rng w (draws w))) (set_draws (S (draws w)) w).

(** [Math.floor(x)].  The product [Math.random() * 5] that the repository
    passes to it is taken exactly. *)
Definition Math_floor (x : Q) : Z := Qfloor x.

(** *** TypeORM: connection, query runners, entity managers *)

Definition createEntityManager : M EntityManager :=
  fun w => Done (Ok (DefaultManager (managers w)))
                (set_managers (S (managers w)) w).

Definition createQueryRunner : M nat :=
  fun w => Done (Ok (length (txs (db w))))
                (set_db (set_txs (txs (db w) ++ [mkTx Idle [] (running w)]) (db w)) w).

Definition with_status (s : TxStatus) (t : Transaction) : Transaction :=
  mkTx s (tx_rows t) (tx_owner t).

Definition with_row (r : Row) (t : Transaction) : Transaction :=
  mkTx (tx_status t) (tx_rows t ++ [r]) (tx_owner t).

Definition startTransaction (x : nat) : M unit :=
  fun w =>
    match tx_state x w with
    | Some Idle =>
        Done (Ok tt) (set_db (tick (set_txs (alter (with_status Open) x (txs (db w))) (db w))) w)
    | _ => Done (Err TransactionAlreadyStarted) w
    end.

Definition commitTransaction (x : nat) : M unit :=
  fun w =>
    match tx_state x w with
    | Some Open =>
        Done (Ok tt)
          (set_db (tick (set_txs (alter (with_status Committed) x (txs (db w)))
                          (set_rows (rows (db w) ++ tx_written x w) (db w)))) w)
    | _ => Done (Err TransactionNotStarted) w
    end.

Definition rollbackTransaction (x : nat) : M unit :=
  fun w =>
    match tx_state x w with
    | Some Open =>
        Done (Ok tt) (set_db (tick (set_txs (alter (with_status RolledBack) x (txs (db w))) (db w))) w)
    | _ => Done (Err TransactionNotStarted) w
    end.

(** The rows a manager reads: the committed rows, and for the manager of an
    open transaction also the rows that transaction has written. *)
Definition manager_rows (m : EntityManager) (w : world) : option (list Row) :=
  match m with
  | DefaultManager _ => Some (rows (db w))
  | TxManager x =>
      match tx_state x w with
      | Some Open => Some (rows (db w) ++ tx_written x w)
      | _ => None
      end
  end.

(** [manager.save(entity)] for an entity made with [new]: an INSERT that
    takes the next primary key of the table.  Through a default manager the
    row is committed at once, through the manager of a transaction it stays
    with the transaction. *)
Definition manager_save {A} `{Entity A} (m : EntityManager) (a : A) : M A :=
  fun w =>
    let d := db w in
    let a' := with_id (next_id entity_kind d) a in
    match m with
    | DefaultManager _ =>
        Done (Ok a')
          (set_db (tick (bump_id entity_kind (set_rows (rows d ++ [to_row a']) d))) w)
    | TxManager x =>
        match tx_state x w with
        | Some Open =>
            Done (Ok a')
              (set_db (tick (bump_id entity_kind
                               (set_txs (alter (with_row (to_row a')) x (txs d)) d))) w)
        | _ => Done (Err QueryRunnerAlreadyReleased) w
        end
    end.

Definition items_of (id : nat) (l : list Row) : list Item :=
  omap (fun r => match r with
                 | RItem i => if decide (item_order i = Some id) then Some i else None
                 | ROrder _ => None
                 end) l.

Definition orders_in (l : list Row) : list Order :=
  omap (fun r => match r with ROrder o => Some o | RItem _ => None end) l.

(** [relations: ['items']]: the order comes with the items that refer to it. *)
Definition load_items (l : list Row) (o : Order) : Order :=
  mkOrder (order_id o) (order_date o) (order_description o)
          (from_option (fun id => items_of id l) [] (order_id o)).

Definition find_order (id : nat) (l : list Row) : option Order :=
  load_items l <$>
    head (filter (fun o => order_id o = Some id) (orders_in l)).

(** [manager.findOneOrFail(Order, id, { relations: ['items'] })] *)
Definition manager_findOneOrFail (m : EntityManager) (id : nat) : M Order :=
  fun w =>
    match manager_rows m w with
    | None => Done (Err QueryRunnerAlreadyReleased) w
    | Some l =>
        match find_order id l with
        | Some o => Done (Ok o) (set_db (tick (db w)) w)
        | None => Done (Err (EntityNotFound KOrder id)) (set_db (tick (db w)) w)
        end
    end.

(** [manager.find(Order, { relations: ['items'] })] *)
Definition manager_find (m : EntityManager) : M (list Order) :=
  fun w =>
    match manager_rows m w with
    | None => Done (Err QueryRunnerAlreadyReleased) w
    | Some l => Done (Ok (load_items l <$> orders_in l)) (set_db (tick (db w)) w)
    end.

(** [connection.transaction(runInTransaction)], as TypeORM's EntityManager
    implements it:
<<
    const queryRunner = this.connection.createQueryRunner();
    try {
      await queryRunner.startTransaction();
      const result = await runInTransaction(queryRunner.manager);
      await queryRunner.commitTransaction();
      return result;
    } catch (err) {
      try { await queryRunner.rollbackTransaction(); } catch (rollbackError) {}
      throw err;
    }
>>
    (the release of the query runner to the pool is left out). *)
Definition connection_transaction {T} (runInTransaction : EntityManager -> M T) : M T :=
  let* queryRunner := createQueryRunner in
  try_catch
    (await (startTransaction queryRunner);;
     let* result := await (runInTransaction (TxManager queryRunner)) in
     await (commitTransaction queryRunner);;
     ret result)
    (fun err =>
       try_catch (await (rollbackTransaction queryRunner)) (fun _ => ret tt);;
       throw err).

(** *** RxJS observables and Nest call handlers *)

(** A cold observable, as its subscriber sees it: it completes, fails, emits
    a value and goes on, or first has to wait for some asynchronous work
    whose result decides how it goes on (values produced lazily). *)
Inductive Observable (T : Type) : Type :=
| Complete
| Error (e : error)
| Next (v : T) (rest : Observable T)
| Defer {A} (work : M A) (k : A -> Observable T).
Arguments Complete {T}.
Arguments Error {T} e.
Arguments Next {T} v rest.
Arguments Defer {T A} work k.

(** [observable.toPromise()]: subscribe, resolve with the last value emitted
    once the observable completes ([None], that is [undefined], when it
    emitted nothing), reject when it fails. *)
Fixpoint last_value {T} (last : option T) (o : Observable T) : M (option T) :=
  match o with
  | Complete => ret last
  | Error e => throw e
  | Next v rest => last_value (Some v) rest
  | Defer work k => let* a := await work in last_value last (k a)
  end.

Definition toPromise {T} (o : Observable T) : M (option T) := last_value None o.

Record CallHandler (T : Type) : Type := mkCallHandler {
  handle : unit -> Observable T
}.

(** ** UnitOfWorkService (core/services/unit-of-work.service.ts) *)

Module UnitOfWorkService.

Definition key : string := "typeOrmEntityManager".

(** <<
    getManager(): EntityManager {
      const storage = this.asyncLocalStorage.getStore();
      if (storage && storage.has('typeOrmEntityManager')) {
        return this.asyncLocalStorage.getStore().get('typeOrmEntityManager');
      }
      return this.connection.createEntityManager();
    }
>>
    Reading a property of [undefined] raises a TypeError; a result that is
    [undefined] is no manager, and is rendered as a TypeError as well. *)
Definition getManager : M EntityManager :=
  let* storage := als_getStore in
  let* held :=
    match storage with
    | Some s => Map_has s key
    | None => ret false
    end in
  if held then
    let* again := als_getStore in
    match again with
    | Some s =>
        let* v := Map_get s key in
        match v with
        | Some manager => ret manager
        | None => throw (TypeError "undefined is not an EntityManager")
        end
    | None => throw (TypeError "Cannot read properties of undefined (reading 'get')")
    end
  else createEntityManager.

(** The body of the callback given to [asyncLocalStorage.run]; [work] is the
    call that produces the response.  The variable [response] of the
    enclosing function, assigned here and returned there, is passed on as
    the result of the callback. *)
Definition in_scope {T} (manager : EntityManager) (work : M T) : M T :=
  (let* store := als_getStore in
   match store with
   | Some s => Map_set s key manager
   | None => throw (TypeError "Cannot read properties of undefined (reading 'set')")
   end);;
  let* response := await work in
  ret response.

(** <<
    async doTransactional<T>(fn): Promise<T> {
      return await this.connection.transaction(async (manager) => {
        let response: T;
        await this.asyncLocalStorage.run(new Map<string, EntityManager>(), async () => {
          this.asyncLocalStorage.getStore().set('typeOrmEntityManager', manager);
          response = await fn(manager);
        });
        return response;
      });
    }
>> *)
Definition doTransactional {T} (fn : EntityManager -> M T) : M T :=
  await (connection_transaction (fun manager =>
    let* response :=
      let* store := new_Map in
      await (als_run store (in_scope manager (fn manager))) in
    ret response)).

(** <<
    async doTransactionalCallHandler(fn: CallHandler): Promise<Observable<any>> {
      return await this.connection.transaction(async (manager) => {
        let response: Observable<any>;
        await this.asyncLocalStorage.run(new Map<string, EntityManager>(), async () => {
          this.asyncLocalStorage.getStore().set('typeOrmEntityManager', manager);
          response = await fn.handle().toPromise();
        });
        return response;
      });
    }
>> *)
Definition doTransactionalCallHandler {T} (fn : CallHandler T) : M (option T) :=
  await (connection_transaction (fun manager =>
    let* response :=
      let* store := new_Map in
      await (als_run store (in_scope manager (toPromise (handle fn tt)))) in
    ret response)).

End UnitOfWorkService.

(** ** TransactionStorageInterceptor
       (core/interceptors/transaction-storage.interceptor.ts) *)

Module TransactionStorageInterceptor.

(** <<
    async intercept(context: ExecutionContext, next: CallHandler) {
      return this.uow.doTransactionalCallHandler(next);
    }
>> *)
Definition intercept {T} (context : unit) (next : CallHandler T) : M (option T) :=
  UnitOfWorkService.doTransactionalCallHandler next.

End TransactionStorageInterceptor.

(** ** Client programs *)

(** The code that runs inside a unit of work is written against the public
    interface: [getManager] and [doTransactional] of the service, the
    operations of an entity manager, [Math.random], [throw] and
    [try]/[catch].  Every operation on a manager is awaited. *)
Inductive prog (A : Type) : Type :=
| Ret (a : A)
| Throw (e : error)
| GetManager (k : EntityManager -> prog A)
| Save {E} (ent : Entity E) (m : EntityManager) (e : E) (k : E -> prog A)
| FindOneOrFail (m : EntityManager) (id : nat) (k : Order -> prog A)
| Find (m : EntityManager) (k : list Order -> prog A)
| Random (k : Q -> prog A)
| DoTransactional {T} (fn : EntityManager -> prog T) (k : T -> prog A)
| TryCatch {T} (body : prog T) (handler : error -> prog T) (k : T -> prog A).
Arguments Ret {A} a.
Arguments Throw {A} e.
Arguments GetManager {A} k.
Arguments Save {A E} ent m e k.
Arguments FindOneOrFail {A} m id k.
Arguments Find {A} m k.
Arguments Random {A} k.
Arguments DoTransactional {A T} fn k.
Arguments TryCatch {A T} body handler k.

Fixpoint pbind {A B} (p : prog A) (f : A -> prog B) : prog B :=
  match p with
  | Ret a => f a
  | Throw e => Throw e
  | GetManager k => GetManager (fun m => pbind (k m) f)
  | Save ent m e k => Save ent m e (fun e' => pbind (k e') f)
  | FindOneOrFail m id k => FindOneOrFail m id (fun o => pbind (k o) f)
  | Find m k => Find m (fun l => pbind (k l) f)
  | Random k => Random (fun q => pbind (k q) f)
  | DoTransactional fn k => DoTransactional fn (fun t => pbind (k t) f)
  | TryCatch body handler k => TryCatch body handler (fun t => pbind (k t) f)
  end.

(** The event loop's record of a manager handed out by [getManager]. *)
Definition observe (m : EntityManager) : M unit :=
  fun w => Done (Ok tt) (set_seen (seen w ++ [(running w, m)]) w).

Fixpoint denote {A} (p : prog A) : M A :=
  match p with
  | Ret a => ret a
  | Throw e => throw e
  | GetManager k =>
      let* m := UnitOfWorkService.getManager in
      observe m;;
      denote (k m)
  | Save ent m e k =>
      let* e' := await (manager_save m e) in denote (k e')
  | FindOneOrFail m id k =>
      let* o := await (manager_findOneOrFail m id) in denote (k o)
  | Find m k =>
      let* l := await (manager_find m) in denote (k l)
  | Random k =>
      let* q := Math_random in denote (k q)
  | DoTransactional fn k =>
      let* t := await (UnitOfWorkService.doTransactional (fun m => denote (fn m))) in
      denote (k t)
  | TryCatch body handler k =>
      let* t := try_catch (denote body) (fun e => denote (handler e)) in
      denote (k t)
  end.

(** The rest of request processing, as a call handler hands it to an
    interceptor: an observable whose asynchronous steps are client programs. *)
Inductive stream (T : Type) : Type :=
| SComplete
| SError (e : error)
| SNext (v : T) (rest : stream T)
| SDefer {A} (work : prog A) (k : A -> stream T).
Arguments SComplete {T}.
Arguments SError {T} e.
Arguments SNext {T} v rest.
Arguments SDefer {T A} work k.

Fixpoint observable_of {T} (s : stream T) : Observable T :=
  match s with
  | SComplete => Complete
  | SError e => Error e
  | SNext v rest => Next v (observable_of rest)
  | SDefer work k => Defer (denote work) (fun a => observable_of (k a))
  end.

Definition handler_of {T} (s : stream T) : CallHandler T :=
  mkCallHandler (fun _ => observable_of s).

(** What Nest passes as [next] for a route handler: on subscription the
    handler is called and its result is the one value emitted. *)
Definition route {T} (handler : prog T) : stream T :=
  SDefer handler (fun v => SNext v SComplete).

(** ** OrderRepository (order/repositories/order.repository.ts) *)

Module OrderRepository.

Definition getAll : prog (list Order) :=
  GetManager (fun manager => Find manager Ret).

Definition getById (idOrder : nat) : prog Order :=
  GetManager (fun manager => FindOneOrFail manager idOrder Ret).

Definition saveOrder (order : Order) : prog Order :=
  GetManager (fun manager => Save Order_Entity manager order Ret).

(** <<
    const rand = Math.floor(Math.random() * 5);
    if (rand <= 2) { throw new HttpException("xablau", 500); }
    return this.uow.getManager().save(item);
>> *)
Definition saveOrderItem (item : Item) : prog Item :=
  Random (fun r =>
    let rand := Math_floor (r * inject_Z 5) in
    if (rand <=? 2)%Z then Throw (HttpException "xablau" 500)
    else GetManager (fun manager => Save Item_Entity manager item Ret)).

End OrderRepository.

(** ** OrderService (order/services/order.service.ts) *)

Module OrderService.

Definition getAll : prog (list Order) := OrderRepository.getAll.

Definition getById (id : nat) : prog Order := OrderRepository.getById id.

(** The loop [for (const itemDto of orderDto.items)] of [createOrder]. *)
Fixpoint saveItems (order : Order) (items : list CreateOrderItemDto) : prog unit :=
  match items with
  | [] => Ret tt
  | itemDto :: rest =>
      let item := mkItem None (dto_name itemDto) (dto_quantity itemDto) (order_id order) in
      pbind (OrderRepository.saveOrderItem item) (fun _ => saveItems order rest)
  end.

Definition createOrder (orderDto : CreateOrderRequestDto) : prog Order :=
  let order := mkOrder None (dto_date orderDto) (dto_description orderDto) [] in
  pbind (OrderRepository.saveOrder order) (fun order =>
  pbind (saveItems order (dto_items orderDto)) (fun _ =>
  Ret order)).

End OrderService.

(** ** OrderController (order/controllers/order.controller.ts) *)

Module OrderController.

Definition all : prog (list Order) := OrderService.getAll.

Definition getById (id : nat) : prog Order := OrderService.getById id.

Definition createFirstWay (orderDto : CreateOrderRequestDto) : prog Order :=
  DoTransactional (fun _ => OrderService.createOrder orderDto) Ret.

(** Runs under [@UseInterceptors(TransactionStorageInterceptor)]. *)
Definition createSecondWay (orderDto : CreateOrderRequestDto) : prog Order :=
  OrderService.createOrder orderDto.

(** The request POST /v1/order/secondWay as Nest serves it. *)
Definition secondWay (orderDto : CreateOrderRequestDto) : M (option Order) :=
  TransactionStorageInterceptor.intercept tt
    (handler_of (route (createSecondWay orderDto))).

End OrderController.

(** ** A first world and a few runs *)

Definition empty_db : Database := mkDb [] 1 1 [] 0.

Definition boot (random : nat -> Q) : world :=
  mkWorld empty_db [] None 0 random 0 0 [].

Definition readme_order : CreateOrderRequestDto :=
  mkOrderDto "2021-11-03" "Testing transaction" [mkItemDto "T-Shirt" 1].

Definition run {A} (p : prog A) (w : world) : outcome A * world :=
  run_alone (denote p w).

(** * Notions for one logical execution *)

(** ** Continuations restore their own store *)

(** A suspended computation does not depend on the store that happens to be
    current when the event loop resumes it: each continuation made by
    [await] first puts back the store it captured. *)
Inductive robust {A} : res A -> Prop :=
| robust_done o w : robust (Done o w)
| robust_paused w k :
    (forall s w', k (set_store s w') = k w') ->
    (forall w', robust (k w')) ->
    robust (Paused w k).

(** A call leaves the store of its caller as it found it, when it returns
    (settled, or suspended at its first [await]). *)
Definition framed {A} (m : M A) : Prop :=
  forall w, robust (m w) /\ als_store (world_of (m w)) = als_store w.

(** Every primitive settles at once and leaves the store alone. *)
Definition immediate {A} (m : M A) : Prop :=
  forall w, exists o w', m w = Done o w' /\ als_store w' = als_store w.

(** ** The worlds of a transactional call *)

(** The query runner that the next call to [connection.transaction] makes. *)
Definition opened (w : world) : nat := length (txs (db w)).

(** The world in which the enclosed work starts: the transaction is open,
    a new Map holding its manager has been allocated and is the store. *)
Definition scope_world (w : world) : world :=
  set_store (Some (length (heap w)))
    (set_heap (heap w ++ [mkMap (running w) {[UnitOfWorkService.key := TxManager (opened w)]}])
       (set_db (tick (set_txs (txs (db w) ++ [mkTx Open [] (running w)]) (db w))) w)).

Definition commit_world (x : nat) (w : world) : world :=
  set_db (tick (set_txs (alter (with_status Committed) x (txs (db w)))
                  (set_rows (rows (db w) ++ tx_written x w) (db w)))) w.

Definition rollback_world (x : nat) (w : world) : world :=
  set_db (tick (set_txs (alter (with_status RolledBack) x (txs (db w))) (db w))) w.

(** How [connection.transaction] ends once the enclosed work has settled
    with [r]; [s] is the store of the caller. *)
Definition conclude {T} (x : nat) (s : option nat) (r : outcome T * world)
  : outcome T * world :=
  let (o, w) := r in
  match o, tx_state x w with
  | Ok v, Some Open => (Ok v, set_store s (commit_world x w))
  | Ok v, _ => (Err TransactionNotStarted, set_store s w)
  | Err e, Some Open => (Err e, set_store s (rollback_world x w))
  | Err e, _ => (Err e, set_store s w)
  end.

Definition begin_world (w : world) : world :=
  set_db (tick (set_txs (txs (db w) ++ [mkTx Open [] (running w)]) (db w))) w.

(** The world in which the callback of [asyncLocalStorage.run] calls the
    enclosed work. *)
Definition scoped (manager : EntityManager) (w : world) : world :=
  set_store (Some (length (heap w)))
    (set_heap (heap w ++ [mkMap (running w) {[UnitOfWorkService.key := manager]}]) w).

(** ** The ambient manager *)

(** The manager held by the active store, if a store is active and holds
    one under the well-known key. *)
Definition ambient (w : world) : option EntityManager :=
  als_store w ≫= fun l => map_lookup l UnitOfWorkService.key w.

(** The world after [createEntityManager]. *)
Definition default_made (w : world) : world := set_managers (S (managers w)) w.

Definition noted (m : EntityManager) (w : world) : world :=
  set_seen (seen w ++ [(running w, m)]) w.

(** ** What no client program can undo *)

(** Query runners are never removed and a client program cannot change the
    state of a transaction that exists already: only the call that opened
    it commits it or rolls it back.  Map objects are never changed once the
    program has them. *)
Definition keeps (l l' : list Transaction) : Prop :=
  forall x t, l !! x = Some t ->
    exists t', l' !! x = Some t' /\ tx_status t' = tx_status t /\ tx_owner t' = tx_owner t.

Definition grows (w w' : world) : Prop :=
  keeps (txs (db w)) (txs (db w')) /\ exists h, heap w' = heap w ++ h.

(** ** Primary keys are never reused *)

Definition below (d : Database) (r : Row) : Prop :=
  exists n, row_id r = Some n /\ n < next_id (row_kind r) d.

(** Every row, committed or written in some transaction, has a key the
    table has already given out; a row written in a transaction that has
    not been committed is not among the committed rows; and no row was
    written in two transactions. *)
Record wf_db (d : Database) : Prop := mk_wf {
  wf_rows : forall r, r ∈ rows d -> below d r;
  wf_txs : forall x t r, txs d !! x = Some t -> r ∈ tx_rows t -> below d r;
  wf_pending : forall x t r,
    txs d !! x = Some t -> tx_status t <> Committed -> r ∈ tx_rows t -> r ∉ rows d;
  wf_apart : forall x y tx ty r,
    x <> y -> txs d !! x = Some tx -> txs d !! y = Some ty ->
    r ∈ tx_rows tx -> r ∉ tx_rows ty
}.

Definition wf (w : world) : Prop := wf_db (db w).

(** The store designates an object of the heap. *)
Definition store_valid (w : world) : Prop :=
  forall l, als_store w = Some l -> l < length (heap w).

(** ** Units of work that write through their own manager only *)

(** [confined h p]: the program [p], run where [h] is the ambient manager,
    writes only through [h] and opens no unit of work of its own. *)
Inductive confined (h : EntityManager) : forall A, prog A -> Prop :=
| confined_Ret A (a : A) : confined h (Ret a)
| confined_Throw A e : confined h (@Throw A e)
| confined_GetManager A (k : EntityManager -> prog A) :
    confined h (k h) -> confined h (GetManager k)
| confined_Save A E (ent : Entity E) (e : E) (k : E -> prog A) :
    (forall e', confined h (k e')) -> confined h (Save ent h e k)
| confined_FindOneOrFail A m id (k : Order -> prog A) :
    (forall o, confined h (k o)) -> confined h (FindOneOrFail m id k)
| confined_Find A m (k : list Order -> prog A) :
    (forall l, confined h (k l)) -> confined h (Find m k)
| confined_Random A (k : Q -> prog A) :
    (forall q, confined h (k q)) -> confined h (Random k)
| confined_TryCatch A T (body : prog T) handler (k : T -> prog A) :
    confined h body -> (forall e, confined h (handler e)) ->
    (forall t, confined h (k t)) -> confined h (TryCatch body handler k).

Definition same_outside_tx (w w' : world) : Prop :=
  rows (db w') = rows (db w) /\ heap w' = heap w /\ als_store w' = als_store w.

(** ** Sample units of work *)

Definition sample_order : Order := mkOrder None "2021-11-03" "Testing transaction" [].

(** A unit of work that saves an order and then fails. *)
Definition failing_work (manager : EntityManager) : prog Order :=
  GetManager (fun m => Save Order_Entity m sample_order (fun _ => Throw (UserError "boom"))).

(** A unit of work that saves an order through the manager it is given. *)
Definition saving_work (manager : EntityManager) : prog Order :=
  Save Order_Entity manager sample_order Ret.

Definition no_random : nat -> Q := fun _ => 0%Q.

(** The rows a repository call reads: those of the ambient manager, or the
    committed rows when no manager is ambient. *)
Definition visible (w : world) : option (list Row) :=
  match ambient w with
  | Some m => manager_rows m w
  | None => Some (rows (db w))
  end.

(** ** The interceptor against its description *)

(** All the values of the rest of request processing, awaited to the end. *)
Fixpoint collect {T} (s : stream T) : prog (list T) :=
  match s with
  | SComplete => Ret []
  | SError e => Throw e
  | SNext v rest => pbind (collect rest) (fun vs => Ret (v :: vs))
  | SDefer work k => pbind work (fun a => collect (k a))
  end.

(** The description of the wrapper around a handler, in the words of the
    specification: the semantics of [doTransactional], where the enclosed
    work is the continuation [nextStep], whose result, with every value it
    produces lazily, is awaited to completion inside the scope; what the
    wrapper hands back is the last of these values. *)
Definition runTransactionalAroundHandler {T} (nextStep : stream T) : prog (option T) :=
  DoTransactional (fun _ => pbind (collect nextStep) (fun vs => Ret (last vs))) Ret.

(** * Interleaved logical executions *)

(** ** The event loop *)

(** A logical execution (one request) is ready to be resumed, or has
    finished.  The event loop resumes one ready execution at a time on the
    shared world; [running] names the execution being resumed. *)
Inductive task (A : Type) : Type :=
| Ready (k : world -> res A)
| Finished (o : outcome A).
Arguments Ready {A} k.
Arguments Finished {A} o.

Record system (A : Type) : Type := mkSystem {
  shared : world;
  tasks : list (task A)
}.

(** A request starts in the root context, where no store is active. *)
Definition spawn {A} (m : M A) : task A := Ready (fun w => m (set_store None w)).

Definition step {A} (t : nat) (s : system A) : system A :=
  match tasks s !! t with
  | Some (Ready k) =>
      match k (set_running t (shared s)) with
      | Done o w' => mkSystem w' (<[t := Finished o]> (tasks s))
      | Paused w' k' => mkSystem w' (<[t := Ready k']> (tasks s))
      end
  | _ => s
  end.

Definition schedule {A} (order : list nat) (s : system A) : system A :=
  fold_left (fun s t => step t s) order s.

(** Requests that each run one unit of work. *)
Definition requests {T} (works : list (EntityManager -> prog T)) (w : world) : system T :=
  mkSystem w
    ((fun fn => spawn (UnitOfWorkService.doTransactional (fun m => denote (fn m)))) <$> works).

(** ** Who owns what *)

Definition owner (w : world) (x : nat) : option nat := tx_owner <$> txs (db w) !! x.

Definition creator (w : world) (l : nat) : option nat := map_creator <$> heap w !! l.

(** The manager [m] is a default manager, or the manager of a transaction
    that execution [t] opened. *)
Definition owned_by (t : nat) (w : world) (m : EntityManager) : Prop :=
  match m with
  | TxManager x => owner w x = Some t
  | DefaultManager _ => True
  end.

(** Every manager that [getManager] handed out to an execution is owned by
    that execution, and every manager held in a Map is owned by the
    execution that allocated the Map. *)
Record isolated (w : world) : Prop := mk_isolated {
  iso_seen : forall t m, (t, m) ∈ seen w -> owned_by t w m;
  iso_heap : forall l o m,
    heap w !! l = Some o -> map_entries o !! UnitOfWorkService.key = Some m ->
    owned_by (map_creator o) w m
}.

(** What stays true of a world whatever runs next: who opened a transaction
    and who allocated a Map. *)
Definition ext (w w' : world) : Prop :=
  (forall x t, owner w x = Some t -> owner w' x = Some t) /\
  (forall l t, creator w l = Some t -> creator w' l = Some t).

(** Execution [t] is the one running, and the active store, if any, is a Map
    it allocated. *)
Definition at_home (t : nat) (w : world) : Prop :=
  running w = t /\ forall l, als_store w = Some l -> creator w l = Some t.

Definition enter (t : nat) (w : world) : world := set_running t w.

(** [safe t w0 r]: the computation [r] of execution [t], started in [w0],
    keeps the world isolated up to its next suspension and again each time
    it is resumed, whatever the other executions did in between. *)
Inductive safe (t : nat) {A} (w0 : world) : res A -> Prop :=
| safe_done o w :
    isolated w -> ext w0 w -> at_home t w -> safe t w0 (Done o w)
| safe_paused w k :
    isolated w -> ext w0 w -> at_home t w ->
    (forall w', isolated w' -> ext w w' -> safe t (enter t w') (k (enter t w'))) ->
    safe t w0 (Paused w k).

Definition good (t : nat) {A} (m : M A) : Prop :=
  forall w, isolated w -> at_home t w -> safe t w (m w).

(** An execution that the event loop may resume in any isolated world that
    extends [w]. *)
Definition resumable (t : nat) {A} (w : world) (k : world -> res A) : Prop :=
  forall w', isolated w' -> ext w w' -> safe t (enter t w') (k (enter t w')).

Definition task_ok {A} (w : world) (t : nat) (x : task A) : Prop :=
  match x with
  | Ready k => resumable t w k
  | Finished _ => True
  end.

Definition system_ok {A} (s : system A) : Prop :=
  isolated (shared s) /\
  forall t x, tasks s !! t = Some x -> task_ok (shared s) t x.

(** A primitive that settles at once, keeps owners and creators, and leaves
    the heap, the record of managers handed out, the store and the running
    execution alone. *)
Definition harmless {A} (m : M A) : Prop :=
  forall w, exists o w',
    m w = Done o w' /\ ext w w' /\ seen w' = seen w /\ heap w' = heap w /\
    running w' = running w /\ als_store w' = als_store w.

(** ** A sample of interleaved requests *)

(** Two units of work that ask [getManager] for their manager while they
    work, and a schedule that interleaves them. *)
Definition two_requests : list (EntityManager -> prog Order) :=
  [ (fun _ => GetManager (fun m => Save Order_Entity m sample_order (fun _ =>
              GetManager (fun m' => Save Order_Entity m' sample_order Ret))));
    failing_work ].

Definition interleaving : list nat := [0; 1; 1; 0; 1; 0; 0; 1; 0; 1; 0; 1; 0; 1; 0; 1].

(** * Further notions: orders of any size, plain requests *)

(** ** Orders with any number of items *)

(** The value [rand] that [saveOrderItem] computes for the [k]-th item
    saved from world [w] on. *)
Definition rand_at (w : world) (k : nat) : Z :=
  Math_floor (rng w (draws w + k) * inject_Z 5).

(** The order that [createOrder] gets back from [saveOrder] when the key
    [n] is assigned. *)
Definition new_order (n : nat) (orderDto : CreateOrderRequestDto) : Order :=
  mkOrder (Some n) (dto_date orderDto) (dto_description orderDto) [].

(** The items that the loop of [createOrder] saves for [order], with the
    keys from [j] on. *)
Fixpoint item_rows (order : option nat) (j : nat) (items : list CreateOrderItemDto)
  : list Item :=
  match items with
  | [] => []
  | itemDto :: rest =>
      mkItem (Some j) (dto_name itemDto) (dto_quantity itemDto) order
      :: item_rows order (S j) rest
  end.

(** A request with two items, draws that never trigger the injected
    failure, and draws that trigger it for the second item only. *)
Definition two_items : CreateOrderRequestDto :=
  mkOrderDto "d" "two items" [mkItemDto "a" 1; mkItemDto "b" 2].

Definition high_draws : nat -> Q := fun _ => 9 # 10.

Definition second_draw_low : nat -> Q :=
  fun n => if decide (n = 1) then 1 # 10 else 9 # 10.

(** ** Transactions that are over *)

Definition closed (s : option TxStatus) : Prop :=
  s = None \/ s = Some Committed \/ s = Some RolledBack.

(** No query runner from [n] on holds a transaction that is idle or open. *)
Definition settled_from (n : nat) (w : world) : Prop :=
  forall x, n <= x -> closed (tx_state x w).

(** ** Requests outside any unit of work *)

(** A client program that never calls [doTransactional]. *)
Fixpoint plain {A} (p : prog A) : Prop :=
  match p with
  | Ret _ => True
  | Throw _ => True
  | GetManager k => forall m, plain (k m)
  | Save _ _ _ k => forall e', plain (k e')
  | FindOneOrFail _ _ k => forall o, plain (k o)
  | Find _ k => forall l, plain (k l)
  | Random k => forall q, plain (k q)
  | DoTransactional _ _ => False
  | TryCatch body handler k =>
      plain body /\ (forall e, plain (handler e)) /\ (forall t, plain (k t))
  end.

Definition is_default (m : EntityManager) : Prop :=
  match m with DefaultManager _ => True | TxManager _ => False end.

(** Requests that each run one client program, a controller method for
    instance, from the root context. *)
Definition serve {T} (programs : list (prog T)) (w : world) : system T :=
  mkSystem w ((fun p => spawn (denote p)) <$> programs).

(** Since the world [w0], [getManager] has handed only default managers to
    execution [a]. *)
Definition default_only (a : nat) (w0 w : world) : Prop :=
  forall m, (a, m) ∈ seen w -> (a, m) ∈ seen w0 \/ is_default m.

(** [tame a w0 t r]: the computation [r] of execution [t] keeps
    [default_only a w0] at each suspension and each time it is resumed; when
    [t] is [a] itself, it moreover runs with no store active. *)
Inductive tame (a : nat) (w0 : world) (t : nat) {A} : res A -> Prop :=
| tame_done o w :
    default_only a w0 w -> running w = t -> (t = a -> als_store w = None) ->
    tame a w0 t (Done o w)
| tame_paused w k :
    default_only a w0 w -> running w = t -> (t = a -> als_store w = None) ->
    (forall w', default_only a w0 w' -> tame a w0 t (k (enter t w'))) ->
    tame a w0 t (Paused w k).

Definition tamed (a : nat) (w0 : world) (t : nat) {A} (m : M A) : Prop :=
  forall w, default_only a w0 w -> running w = t -> (t = a -> als_store w = None) ->
            tame a w0 t (m w).

(** A primitive that settles at once and leaves alone the record of managers
    handed out, the running execution and the store. *)
Definition silent {A} (m : M A) : Prop :=
  forall w, exists o w',
    m w = Done o w' /\ seen w' = seen w /\ running w' = running w /\
    als_store w' = als_store w.

Definition tame_system (a : nat) (w0 : world) {A} (s : system A) : Prop :=
  default_only a w0 (shared s) /\
  forall t k, tasks s !! t = Some (Ready k) ->
    forall w', default_only a w0 w' -> tame a w0 t (k (enter t w')).


(** A request that saves outside any unit of work, beside one that works
    inside its own. *)
Definition plain_request : prog Order :=
  GetManager (fun m => Save Order_Entity m sample_order (fun _ =>
  GetManager (fun m' => Save Order_Entity m' sample_order Ret))).

Definition transactional_request : prog Order :=
  DoTransactional
    (fun _ => GetManager (fun m => Save Order_Entity m sample_order Ret)) Ret.

Definition two_kinds : list (prog Order) := [plain_request; transactional_request].
(** * Proofs: one logical execution *)

(** ** Continuations restore their own store *)

Create HintDb uow.
#[local] Hint Constructors robust : uow.

Lemma set_store_same w : set_store (als_store w) w = w.
Proof. now destruct w. Qed.

Lemma robust_bind_res {A B} (r : res A) (f : A -> M B) :
  robust r -> (forall a w, robust (f a w)) -> robust (bind_res r f).
Proof.
  intros Hr Hf. induction Hr as [o w | w k Hk Hrk IH]; simpl.
  - destruct o; auto with uow.
  - constructor; auto. intros s w'. now rewrite Hk.
Qed.

Lemma robust_catch_res {A} (r : res A) (h : error -> M A) :
  robust r -> (forall e w, robust (h e w)) -> robust (catch_res r h).
Proof.
  intros Hr Hh. induction Hr as [o w | w k Hk Hrk IH]; simpl.
  - destruct o; auto with uow.
  - constructor; auto. intros s w'. now rewrite Hk.
Qed.

Lemma robust_resume_then {A} s (r : res A) : robust r -> robust (resume_then s r).
Proof.
  induction 1 as [o w | w k Hk Hrk IH]; simpl.
  - constructor; auto with uow.
  - constructor; auto. intros s' w'. now rewrite Hk.
Qed.

Lemma world_of_bind_res {A B} (r : res A) (f : A -> M B) :
  (forall a w, als_store (world_of (f a w)) = als_store w) ->
  als_store (world_of (bind_res r f)) = als_store (world_of r).
Proof. intros Hf. destruct r as [[a|e] w | w k]; simpl; auto. Qed.

Lemma world_of_catch_res {A} (r : res A) (h : error -> M A) :
  (forall e w, als_store (world_of (h e w)) = als_store w) ->
  als_store (world_of (catch_res r h)) = als_store (world_of r).
Proof. intros Hh. destruct r as [[a|e] w | w k]; simpl; auto. Qed.

Lemma world_of_resume_then {A} s (r : res A) :
  world_of (resume_then s r) = world_of r.
Proof. now destruct r. Qed.

Lemma framed_ret {A} (a : A) : framed (ret a).
Proof. intros w. split; [constructor | reflexivity]. Qed.

Lemma framed_throw {A} (e : error) : framed (@throw A e).
Proof. intros w. split; [constructor | reflexivity]. Qed.

Lemma framed_bind {A B} (m : M A) (f : A -> M B) :
  framed m -> (forall a, framed (f a)) -> framed (bind m f).
Proof.
  intros Hm Hf w. unfold bind. split.
  - apply robust_bind_res; [apply Hm | intros; apply Hf].
  - rewrite world_of_bind_res; [apply Hm | intros; apply Hf].
Qed.

Lemma framed_try_catch {A} (m : M A) (h : error -> M A) :
  framed m -> (forall e, framed (h e)) -> framed (try_catch m h).
Proof.
  intros Hm Hh w. unfold try_catch. split.
  - apply robust_catch_res; [apply Hm | intros; apply Hh].
  - rewrite world_of_catch_res; [apply Hm | intros; apply Hh].
Qed.

Lemma framed_await {A} (m : M A) : framed m -> framed (await m).
Proof.
  intros Hm w. unfold await. split.
  - apply robust_resume_then, Hm.
  - rewrite world_of_resume_then. apply Hm.
Qed.

Lemma framed_als_run {A} store (callback : M A) :
  (forall w, robust (callback w)) -> framed (als_run store callback).
Proof.
  intros Hc w. unfold als_run.
  specialize (Hc (set_store (Some store) w)).
  destruct (callback (set_store (Some store) w)) as [o w' | w' k]; split; simpl; auto with uow.
  inversion Hc; subst. now constructor.
Qed.

Lemma framed_immediate {A} (m : M A) : immediate m -> framed m.
Proof.
  intros Hm w. destruct (Hm w) as (o & w' & -> & Hs). split; [constructor | exact Hs].
Qed.

Ltac immediate_tac :=
  let w := fresh "w" in
  intros w; repeat (unfold tx_state, manager_rows; simpl);
  repeat match goal with
         | |- context [match ?x with _ => _ end] => destruct x; simpl
         end;
  eauto.

Lemma immediate_als_getStore : immediate als_getStore.
Proof. immediate_tac. Qed.
Lemma immediate_new_Map : immediate new_Map.
Proof. immediate_tac. Qed.
Lemma immediate_Map_has l k : immediate (Map_has l k).
Proof. immediate_tac. Qed.
Lemma immediate_Map_get l k : immediate (Map_get l k).
Proof. immediate_tac. Qed.
Lemma immediate_Map_set l k v : immediate (Map_set l k v).
Proof. immediate_tac. Qed.
Lemma immediate_Math_random : immediate Math_random.
Proof. immediate_tac. Qed.
Lemma immediate_createEntityManager : immediate createEntityManager.
Proof. immediate_tac. Qed.
Lemma immediate_createQueryRunner : immediate createQueryRunner.
Proof. immediate_tac. Qed.
Lemma immediate_startTransaction x : immediate (startTransaction x).
Proof. unfold startTransaction. immediate_tac. Qed.
Lemma immediate_commitTransaction x : immediate (commitTransaction x).
Proof. unfold commitTransaction. immediate_tac. Qed.
Lemma immediate_rollbackTransaction x : immediate (rollbackTransaction x).
Proof. unfold rollbackTransaction. immediate_tac. Qed.
Lemma immediate_manager_save {A} (ent : Entity A) m (a : A) : immediate (manager_save m a).
Proof. unfold manager_save. immediate_tac. Qed.
Lemma immediate_manager_findOneOrFail m id : immediate (manager_findOneOrFail m id).
Proof. unfold manager_findOneOrFail. immediate_tac. Qed.
Lemma immediate_manager_find m : immediate (manager_find m).
Proof. unfold manager_find. immediate_tac. Qed.
Lemma immediate_observe m : immediate (observe m).
Proof. immediate_tac. Qed.

#[local] Hint Resolve framed_ret framed_throw framed_bind framed_try_catch
  framed_await framed_als_run framed_immediate
  immediate_als_getStore immediate_new_Map immediate_Map_has immediate_Map_get
  immediate_Map_set immediate_Math_random immediate_createEntityManager
  immediate_createQueryRunner immediate_startTransaction
  immediate_commitTransaction immediate_rollbackTransaction
  immediate_manager_save immediate_manager_findOneOrFail immediate_manager_find
  immediate_observe : uow.

Lemma framed_getManager : framed UnitOfWorkService.getManager.
Proof.
  unfold UnitOfWorkService.getManager.
  apply framed_bind; [auto with uow|]. intros [s|].
  - apply framed_bind; [auto with uow|]. intros [|]; [|auto with uow].
    apply framed_bind; [auto with uow|]. intros [s'|]; [|auto with uow].
    apply framed_bind; [auto with uow|]. intros [m|]; auto with uow.
  - apply framed_bind; [auto with uow|]. intros [|]; [|auto with uow].
    apply framed_bind; [auto with uow|]. intros [s'|]; [|auto with uow].
    apply framed_bind; [auto with uow|]. intros [m|]; auto with uow.
Qed.

Lemma framed_in_scope {T} manager (work : M T) :
  framed work -> framed (UnitOfWorkService.in_scope manager work).
Proof.
  intros Hw. unfold UnitOfWorkService.in_scope.
  apply framed_bind.
  - apply framed_bind; [auto with uow|]. intros [s|]; auto with uow.
  - intros _. auto with uow.
Qed.

Lemma framed_connection_transaction {T} (cb : EntityManager -> M T) :
  (forall m, framed (cb m)) -> framed (connection_transaction cb).
Proof.
  intros Hcb. unfold connection_transaction.
  apply framed_bind; [auto with uow|]. intros x.
  apply framed_try_catch.
  - apply framed_bind; [auto with uow|]. intros _.
    apply framed_bind; [auto with uow|]. intros r.
    apply framed_bind; auto with uow.
  - intros e. apply framed_bind; auto 6 with uow.
Qed.

Lemma framed_scoped {T} manager (work : M T) :
  framed work ->
  framed (let* response :=
            (let* store := new_Map in
             await (als_run store (UnitOfWorkService.in_scope manager work))) in
          ret response).
Proof.
  intros Hw. apply framed_bind; [|auto with uow].
  apply framed_bind; [auto with uow|]. intros store.
  apply framed_await, framed_als_run. intros w.
  now apply framed_in_scope.
Qed.

Lemma framed_doTransactional {T} (fn : EntityManager -> M T) :
  (forall m, framed (fn m)) -> framed (UnitOfWorkService.doTransactional fn).
Proof.
  intros Hfn. unfold UnitOfWorkService.doTransactional.
  apply framed_await, framed_connection_transaction.
  intros m. now apply framed_scoped.
Qed.

Lemma framed_denote {A} (p : prog A) : framed (denote p).
Proof.
  induction p; simpl; auto with uow.
  - apply framed_bind; [apply framed_getManager|]. intros m.
    apply framed_bind; auto with uow.
  - apply framed_bind; [|auto]. apply framed_await. now apply framed_doTransactional.
Qed.

Lemma framed_last_value {T} (s : stream T) last :
  framed (last_value last (observable_of s)).
Proof.
  revert last. induction s as [| e | v rest IH | A work k IH]; simpl; intros last;
    auto using framed_ret, framed_throw.
  apply framed_bind; [apply framed_await, framed_denote | auto].
Qed.

#[local] Hint Resolve framed_getManager framed_in_scope framed_connection_transaction
  framed_doTransactional framed_denote framed_scoped framed_last_value : uow.

(** ** Running to completion *)

Lemma run_alone_bind_res {A B} (r : res A) (f : A -> M B) :
  run_alone (bind_res r f) =
  match run_alone r with
  | (Ok a, w) => run_alone (f a w)
  | (Err e, w) => (Err e, w)
  end.
Proof. induction r as [[a|e] w | w k IH]; simpl; auto. Qed.

Lemma run_alone_bind {A B} (m : M A) (f : A -> M B) w :
  run_alone (bind m f w) =
  match run_alone (m w) with
  | (Ok a, w') => run_alone (f a w')
  | (Err e, w') => (Err e, w')
  end.
Proof. apply run_alone_bind_res. Qed.

Lemma run_alone_catch_res {A} (r : res A) (h : error -> M A) :
  run_alone (catch_res r h) =
  match run_alone r with
  | (Ok a, w) => (Ok a, w)
  | (Err e, w) => run_alone (h e w)
  end.
Proof. induction r as [[a|e] w | w k IH]; simpl; auto. Qed.

Lemma run_alone_try_catch {A} (m : M A) (h : error -> M A) w :
  run_alone (try_catch m h w) =
  match run_alone (m w) with
  | (Ok a, w') => (Ok a, w')
  | (Err e, w') => run_alone (h e w')
  end.
Proof. apply run_alone_catch_res. Qed.

Lemma run_alone_resume_then {A} s (r : res A) :
  run_alone (resume_then s r) =
  let (o, w) := run_alone r in (o, set_store s w).
Proof. induction r as [o w | w k IH]; simpl; auto. Qed.

Lemma run_alone_await {A} (m : M A) w :
  framed m ->
  run_alone (await m w) = let (o, w') := run_alone (m w) in (o, set_store (als_store w) w').
Proof.
  intros Hm. unfold await. rewrite run_alone_resume_then.
  now destruct (Hm w) as [_ ->].
Qed.

(** Awaiting [asyncLocalStorage.run(store, callback)]: the callback runs to
    its end under [store], and the caller goes on under its own store. *)
Lemma run_alone_await_als_run {A} store (callback : M A) w :
  (forall w', robust (callback w')) ->
  run_alone (await (als_run store callback) w) =
  let (o, w') := run_alone (callback (set_store (Some store) w)) in
  (o, set_store (als_store w) w').
Proof.
  intros Hc. rewrite run_alone_await by auto with uow.
  unfold als_run. specialize (Hc (set_store (Some store) w)).
  destruct (callback (set_store (Some store) w)) as [o w' | w' k]; simpl.
  - reflexivity.
  - inversion Hc as [|? ? Hk _]; subst. rewrite Hk. reflexivity.
Qed.

Lemma run_alone_await_immediate {A} (m : M A) w o w' :
  m w = Done o w' ->
  run_alone (await m w) = (o, set_store (als_store w') w').
Proof. intros H. unfold await. now rewrite H. Qed.

(** ** What a transactional call does, end to end *)

Lemma alter_app_last {A} (f : A -> A) (l : list A) (a : A) :
  alter f (length l) (l ++ [a]) = l ++ [f a].
Proof. induction l as [|b l IH]; simpl; [reflexivity | f_equal; exact IH]. Qed.

Lemma lookup_app_last {A} (l : list A) (a : A) :
  (l ++ [a]) !! length l = Some a.
Proof. induction l as [|b l IH]; simpl; auto. Qed.

Lemma run_alone_in_scope {T} manager (work : M T) l w :
  framed work ->
  als_store w = Some l ->
  run_alone (UnitOfWorkService.in_scope manager work w) =
  let (o, w') := run_alone (work (set_heap (alter (put UnitOfWorkService.key manager) l (heap w)) w)) in
  (o, set_store (Some l) w').
Proof.
  intros Hw Hs. unfold UnitOfWorkService.in_scope.
  rewrite run_alone_bind. unfold bind at 1, als_getStore. simpl. rewrite Hs. simpl.
  rewrite run_alone_bind, run_alone_await by assumption. simpl. rewrite Hs.
  destruct (run_alone (work _)) as [[v|e] w']; reflexivity.
Qed.

Lemma run_alone_await_commit x w :
  run_alone (await (commitTransaction x) w) =
  match tx_state x w with
  | Some Open => (Ok tt, commit_world x w)
  | _ => (Err TransactionNotStarted, w)
  end.
Proof.
  unfold await, commitTransaction.
  destruct (tx_state x w) as [[]|]; simpl; now rewrite ?set_store_same.
Qed.

Lemma run_alone_await_rollback x w :
  run_alone (await (rollbackTransaction x) w) =
  match tx_state x w with
  | Some Open => (Ok tt, rollback_world x w)
  | _ => (Err TransactionNotStarted, w)
  end.
Proof.
  unfold await, rollbackTransaction.
  destruct (tx_state x w) as [[]|]; simpl; now rewrite ?set_store_same.
Qed.

Lemma run_alone_connection_transaction {T} (cb : EntityManager -> M T) w :
  (forall m, framed (cb m)) ->
  run_alone (connection_transaction cb w) =
  conclude (opened w) (als_store w) (run_alone (cb (TxManager (opened w)) (begin_world w))).
Proof.
  intros Hcb. unfold connection_transaction.
  rewrite run_alone_bind. simpl.
  rewrite run_alone_try_catch, run_alone_bind.
  erewrite run_alone_await_immediate; cycle 1.
  { unfold startTransaction, tx_state. simpl. rewrite lookup_app_last. simpl. reflexivity. }
  simpl. rewrite alter_app_last. simpl.
  rewrite run_alone_bind, run_alone_await by auto.
  fold (opened w).
  match goal with
  | |- context [cb _ ?W] =>
      replace W with (begin_world w) by (destruct w as [[]]; reflexivity)
  end.
  destruct (run_alone (cb (TxManager (opened w)) (begin_world w))) as [[v|e] w4].
  - cbv beta iota. rewrite run_alone_bind, run_alone_await_commit.
    change (tx_state (opened w) (set_store _ w4)) with (tx_state (opened w) w4).
    unfold conclude.
    destruct (tx_state (opened w) w4) as [[]|] eqn:E; try reflexivity;
      rewrite run_alone_bind, run_alone_try_catch, run_alone_await_rollback;
      change (tx_state (opened w) (set_store _ w4)) with (tx_state (opened w) w4);
      rewrite E; reflexivity.
  - cbv beta iota.
    rewrite run_alone_bind, run_alone_try_catch, run_alone_await_rollback.
    change (tx_state (opened w) (set_store _ w4)) with (tx_state (opened w) w4).
    unfold conclude.
    destruct (tx_state (opened w) w4) as [[]|] eqn:E; reflexivity.
Qed.

Lemma run_alone_scoped {T} manager (work : M T) w :
  framed work ->
  run_alone
    ((let* response :=
        (let* store := new_Map in
         await (als_run store (UnitOfWorkService.in_scope manager work))) in
      ret response) w) =
  let (o, w') := run_alone (work (scoped manager w)) in (o, set_store (als_store w) w').
Proof.
  intros Hw. rewrite run_alone_bind, run_alone_bind. simpl.
  rewrite run_alone_await_als_run by (intros; now apply framed_in_scope).
  erewrite run_alone_in_scope by (auto; reflexivity). simpl.
  rewrite alter_app_last. unfold put. simpl. rewrite insert_empty.
  change (set_heap _ (set_store _ _)) with (scoped manager w).
  destruct (run_alone (work (scoped manager w))) as [[v|e] w']; reflexivity.
Qed.

Lemma scoped_begin_world w :
  scoped (TxManager (opened w)) (begin_world w) = scope_world w.
Proof. reflexivity. Qed.

Lemma conclude_set_store {T} x s (o : outcome T) w :
  conclude x s (o, set_store s w) = conclude x s (o, w).
Proof.
  unfold conclude. change (tx_state x (set_store s w)) with (tx_state x w).
  destruct o, (tx_state x w) as [[]|]; reflexivity.
Qed.

Lemma conclude_store {T} x s (r : outcome T * world) :
  als_store (snd (conclude x s r)) = s.
Proof.
  destruct r as [o w]. unfold conclude.
  destruct o, (tx_state x w) as [[]|]; reflexivity.
Qed.

Lemma run_alone_transactional {T} (work : EntityManager -> M T) w :
  (forall m, framed (work m)) ->
  run_alone
    (await (connection_transaction (fun manager =>
       let* response :=
         (let* store := new_Map in
          await (als_run store (UnitOfWorkService.in_scope manager (work manager)))) in
       ret response)) w) =
  conclude (opened w) (als_store w)
    (run_alone (work (TxManager (opened w)) (scope_world w))).
Proof.
  intros Hw.
  rewrite run_alone_await by (apply framed_connection_transaction; intros; now apply framed_scoped).
  rewrite run_alone_connection_transaction by (intros; now apply framed_scoped).
  rewrite run_alone_scoped by auto. rewrite scoped_begin_world.
  change (als_store (begin_world w)) with (als_store w).
  destruct (run_alone (work (TxManager (opened w)) (scope_world w))) as [o w'].
  rewrite conclude_set_store.
  pose proof (conclude_store (opened w) (als_store w) (o, w')) as Hs.
  destruct (conclude (opened w) (als_store w) (o, w')) as [o' w'']. simpl in Hs.
  now rewrite <- Hs, set_store_same.
Qed.

Lemma run_alone_doTransactional {T} (fn : EntityManager -> M T) w :
  (forall m, framed (fn m)) ->
  run_alone (UnitOfWorkService.doTransactional fn w) =
  conclude (opened w) (als_store w)
    (run_alone (fn (TxManager (opened w)) (scope_world w))).
Proof. apply run_alone_transactional. Qed.

Lemma run_alone_doTransactionalCallHandler {T} (fn : CallHandler T) w :
  framed (toPromise (handle fn tt)) ->
  run_alone (UnitOfWorkService.doTransactionalCallHandler fn w) =
  conclude (opened w) (als_store w)
    (run_alone (toPromise (handle fn tt) (scope_world w))).
Proof.
  intros H.
  apply (run_alone_transactional (fun _ => toPromise (handle fn tt))). auto.
Qed.

(** ** Client programs, step by step *)

Lemma getManager_eq w :
  UnitOfWorkService.getManager w =
  match ambient w with
  | Some m => Done (Ok m) w
  | None => Done (Ok (DefaultManager (managers w))) (default_made w)
  end.
Proof.
  unfold UnitOfWorkService.getManager, ambient, bind, als_getStore, Map_has, Map_get, ret.
  simpl. destruct (als_store w) as [l|] eqn:Hs; simpl; [|reflexivity].
  destruct (map_lookup l UnitOfWorkService.key w) as [m|] eqn:Hm; simpl; [|reflexivity].
  rewrite Hs. simpl. now rewrite Hm.
Qed.

Lemma run_alone_await_now {A} (m : M A) w :
  immediate m -> run_alone (await m w) = run_alone (m w).
Proof.
  intros Hm. destruct (Hm w) as (o & w' & E & Hs).
  rewrite (run_alone_await_immediate _ _ E), E. simpl. now rewrite set_store_same.
Qed.

Lemma run_Ret {A} (a : A) w : run (Ret a) w = (Ok a, w).
Proof. reflexivity. Qed.

Lemma run_Throw {A} e w : run (@Throw A e) w = (Err e, w).
Proof. reflexivity. Qed.

Lemma run_GetManager {A} (k : EntityManager -> prog A) w :
  run (GetManager k) w =
  match ambient w with
  | Some m => run (k m) (noted m w)
  | None => run (k (DefaultManager (managers w))) (noted (DefaultManager (managers w)) (default_made w))
  end.
Proof.
  unfold run. simpl. rewrite run_alone_bind, getManager_eq.
  destruct (ambient w); simpl; now rewrite run_alone_bind.
Qed.

Lemma run_Save {A E} (ent : Entity E) m (e : E) (k : E -> prog A) w :
  run (Save ent m e k) w =
  match run_alone (manager_save m e w) with
  | (Ok e', w') => run (k e') w'
  | (Err x, w') => (Err x, w')
  end.
Proof.
  unfold run. simpl. rewrite run_alone_bind, run_alone_await_now by auto with uow.
  reflexivity.
Qed.

Lemma run_FindOneOrFail {A} m id (k : Order -> prog A) w :
  run (FindOneOrFail m id k) w =
  match run_alone (manager_findOneOrFail m id w) with
  | (Ok o, w') => run (k o) w'
  | (Err x, w') => (Err x, w')
  end.
Proof.
  unfold run. simpl. rewrite run_alone_bind, run_alone_await_now by auto with uow.
  reflexivity.
Qed.

Lemma run_Find {A} m (k : list Order -> prog A) w :
  run (Find m k) w =
  match run_alone (manager_find m w) with
  | (Ok l, w') => run (k l) w'
  | (Err x, w') => (Err x, w')
  end.
Proof.
  unfold run. simpl. rewrite run_alone_bind, run_alone_await_now by auto with uow.
  reflexivity.
Qed.

Lemma run_Random {A} (k : Q -> prog A) w :
  run (Random k) w = run (k (rng w (draws w))) (set_draws (S (draws w)) w).
Proof. unfold run. simpl. now rewrite run_alone_bind. Qed.

Lemma run_TryCatch {A T} (body : prog T) handler (k : T -> prog A) w :
  run (TryCatch body handler k) w =
  match run body w with
  | (Ok t, w') => run (k t) w'
  | (Err e, w') =>
      match run (handler e) w' with
      | (Ok t, w'') => run (k t) w''
      | (Err e', w'') => (Err e', w'')
      end
  end.
Proof.
  unfold run. simpl. rewrite run_alone_bind, run_alone_try_catch.
  destruct (run_alone (denote body w)) as [[t|e] w']; reflexivity.
Qed.

Lemma run_DoTransactional {A T} (fn : EntityManager -> prog T) (k : T -> prog A) w :
  run (DoTransactional fn k) w =
  match conclude (opened w) (als_store w)
          (run (fn (TxManager (opened w))) (scope_world w)) with
  | (Ok t, w') => run (k t) w'
  | (Err e, w') => (Err e, w')
  end.
Proof.
  unfold run. simpl.
  rewrite run_alone_bind, run_alone_await by auto with uow.
  rewrite run_alone_doTransactional by auto with uow.
  pose proof (conclude_store (opened w) (als_store w)
                (run_alone (denote (fn (TxManager (opened w))) (scope_world w)))) as Hs.
  destruct (conclude _ _ _) as [o w']. simpl in Hs. rewrite <- Hs, set_store_same.
  reflexivity.
Qed.

Lemma run_pbind {A B} (p : prog A) (f : A -> prog B) w :
  run (pbind p f) w =
  match run p w with
  | (Ok a, w') => run (f a) w'
  | (Err e, w') => (Err e, w')
  end.
Proof.
  revert B f w.
  induction p as [A a | A e | A k IH | A E ent m e k IH | A m id k IH | A m k IH | A k IH
                 | A T fn IHfn k IH | A T body IHb handler IHh k IH];
    intros B f w; simpl pbind.
  - rewrite run_Ret. reflexivity.
  - rewrite run_Throw. reflexivity.
  - rewrite !run_GetManager. destruct (ambient w); apply IH.
  - rewrite !run_Save. destruct (run_alone _) as [[e'|x] w']; [apply IH | reflexivity].
  - rewrite !run_FindOneOrFail. destruct (run_alone _) as [[e'|x] w']; [apply IH | reflexivity].
  - rewrite !run_Find. destruct (run_alone _) as [[e'|x] w']; [apply IH | reflexivity].
  - rewrite !run_Random. apply IH.
  - rewrite !run_DoTransactional. destruct (conclude _ _ _) as [[t|x] w']; [apply IH | reflexivity].
  - rewrite !run_TryCatch. destruct (run body w) as [[t|x] w']; [apply IH|].
    destruct (run (handler x) w') as [[t|x'] w'']; [apply IH | reflexivity].
Qed.

(** ** What no client program can undo *)

Lemma keeps_refl l : keeps l l.
Proof. intros x t H. eauto. Qed.

Lemma keeps_trans l1 l2 l3 : keeps l1 l2 -> keeps l2 l3 -> keeps l1 l3.
Proof.
  intros H12 H23 x t H.
  destruct (H12 x t H) as (t' & H' & Hs & Ho).
  destruct (H23 x t' H') as (t'' & H'' & Hs' & Ho').
  exists t''. repeat split; congruence.
Qed.

Lemma keeps_app l l' : keeps l (l ++ l').
Proof. intros x t H. exists t. split; [now apply lookup_app_l_Some | auto]. Qed.

Lemma keeps_alter (f : Transaction -> Transaction) x l :
  (forall t, tx_status (f t) = tx_status t /\ tx_owner (f t) = tx_owner t) ->
  keeps l (alter f x l).
Proof.
  intros Hf y t H. destruct (decide (x = y)) as [->|Hne].
  - exists (f t). split; [|apply Hf].
    rewrite list_lookup_alter_eq, H. reflexivity.
  - exists t. split; [|auto]. now rewrite list_lookup_alter_ne.
Qed.

Lemma keeps_alter_beyond (f : Transaction -> Transaction) x l l' :
  keeps l l' -> length l <= x -> keeps l (alter f x l').
Proof.
  intros Hk Hx y t H. destruct (Hk y t H) as (t' & H' & Hs).
  exists t'. split; [|exact Hs].
  rewrite list_lookup_alter_ne; [exact H'|].
  apply lookup_lt_Some in H. lia.
Qed.

Lemma grows_refl w : grows w w.
Proof. split; [apply keeps_refl | exists []; now rewrite app_nil_r]. Qed.

Lemma grows_trans w1 w2 w3 : grows w1 w2 -> grows w2 w3 -> grows w1 w3.
Proof.
  intros [K12 [h12 H12]] [K23 [h23 H23]]. split.
  - eapply keeps_trans; eauto.
  - exists (h12 ++ h23). now rewrite H23, H12, app_assoc.
Qed.

Lemma grows_same_db_heap w w' :
  txs (db w') = txs (db w) -> heap w' = heap w -> grows w w'.
Proof.
  intros Ht Hh. split; [rewrite Ht; apply keeps_refl | exists []; now rewrite app_nil_r].
Qed.

Lemma tx_state_scope_world w : tx_state (opened w) (scope_world w) = Some Open.
Proof. unfold tx_state, opened. simpl. now rewrite lookup_app_last. Qed.

Lemma grows_tx_state w w' x s :
  grows w w' -> tx_state x w = Some s -> tx_state x w' = Some s.
Proof.
  intros [K _] H. unfold tx_state in *.
  destruct (txs (db w) !! x) as [t|] eqn:E; [|discriminate].
  destruct (K x t E) as (t' & -> & Hs & _). simpl in *. congruence.
Qed.

Lemma grows_save {A} (ent : Entity A) m (a : A) w :
  grows w (snd (run_alone (manager_save m a w))) /\
  als_store (snd (run_alone (manager_save m a w))) = als_store w.
Proof.
  unfold manager_save. destruct m as [x|n]; simpl.
  - destruct (tx_state x w) as [[]|]; simpl; split; auto using grows_refl.
    split; [|exists []; now rewrite app_nil_r]. simpl.
    destruct entity_kind; simpl; apply keeps_alter; auto.
  - split; [|reflexivity]. apply grows_same_db_heap; [|reflexivity].
    simpl. destruct entity_kind; reflexivity.
Qed.

Lemma grows_findOneOrFail m id w :
  grows w (snd (run_alone (manager_findOneOrFail m id w))) /\
  als_store (snd (run_alone (manager_findOneOrFail m id w))) = als_store w.
Proof.
  unfold manager_findOneOrFail.
  destruct (manager_rows m w); [destruct (find_order id l)|];
    simpl; split; auto using grows_refl, grows_same_db_heap.
Qed.

Lemma grows_find m w :
  grows w (snd (run_alone (manager_find m w))) /\
  als_store (snd (run_alone (manager_find m w))) = als_store w.
Proof.
  unfold manager_find.
  destruct (manager_rows m w); simpl; split; auto using grows_refl, grows_same_db_heap.
Qed.

Lemma grows_conclude {T} w (r : outcome T * world) :
  grows (scope_world w) (snd r) ->
  grows w (snd (conclude (opened w) (als_store w) r)).
Proof.
  intros [K [h H]]. destruct r as [o w4]. simpl in *.
  assert (Kw : keeps (txs (db w)) (txs (db w4))).
  { eapply keeps_trans; [|exact K]. apply keeps_app. }
  assert (Hh : exists h', heap w4 = heap w ++ h').
  { rewrite H. rewrite <- app_assoc. eauto. }
  unfold conclude.
  destruct o, (tx_state (opened w) w4) as [[]|]; simpl; split; auto;
    simpl; apply keeps_alter_beyond; auto.
Qed.

Lemma run_grows {A} (p : prog A) w :
  grows w (snd (run p w)) /\ als_store (snd (run p w)) = als_store w.
Proof.
  revert w.
  induction p as [A a | A e | A k IH | A E ent m e k IH | A m id k IH | A m k IH | A k IH
                 | A T fn IHfn k IH | A T body IHb handler IHh k IH]; intros w.
  - rewrite run_Ret. split; [apply grows_refl | reflexivity].
  - rewrite run_Throw. split; [apply grows_refl | reflexivity].
  - rewrite run_GetManager. destruct (ambient w) as [m|].
    + destruct (IH m (noted m w)) as [G S]. split; [|exact S].
      eapply grows_trans; [|exact G]. now apply grows_same_db_heap.
    + destruct (IH (DefaultManager (managers w))
                  (noted (DefaultManager (managers w)) (default_made w))) as [G S].
      split; [|exact S]. eapply grows_trans; [|exact G]. now apply grows_same_db_heap.
  - rewrite run_Save. destruct (grows_save ent m e w) as [G S].
    destruct (run_alone (manager_save m e w)) as [[e'|x] w']; simpl in *; [|auto].
    destruct (IH e' w') as [G' S']. split; [eapply grows_trans; eauto | congruence].
  - rewrite run_FindOneOrFail. destruct (grows_findOneOrFail m id w) as [G S].
    destruct (run_alone (manager_findOneOrFail m id w)) as [[e'|x] w']; simpl in *; [|auto].
    destruct (IH e' w') as [G' S']. split; [eapply grows_trans; eauto | congruence].
  - rewrite run_Find. destruct (grows_find m w) as [G S].
    destruct (run_alone (manager_find m w)) as [[e'|x] w']; simpl in *; [|auto].
    destruct (IH e' w') as [G' S']. split; [eapply grows_trans; eauto | congruence].
  - rewrite run_Random.
    destruct (IH (rng w (draws w)) (set_draws (S (draws w)) w)) as [G S].
    split; [|exact S]. eapply grows_trans; [|exact G]. now apply grows_same_db_heap.
  - rewrite run_DoTransactional.
    destruct (IHfn (TxManager (opened w)) (scope_world w)) as [G _].
    apply grows_conclude in G.
    pose proof (conclude_store (opened w) (als_store w)
                  (run (fn (TxManager (opened w))) (scope_world w))) as S.
    destruct (conclude _ _ _) as [[t|x] w']; simpl in *; [|auto].
    destruct (IH t w') as [G' S']. split; [eapply grows_trans; eauto | congruence].
  - rewrite run_TryCatch. destruct (IHb w) as [G S].
    destruct (run body w) as [[t|x] w']; simpl in *.
    + destruct (IH t w') as [G' S']. split; [eapply grows_trans; eauto | congruence].
    + destruct (IHh x w') as [G' S'].
      destruct (run (handler x) w') as [[t|x'] w'']; simpl in *.
      * destruct (IH t w'') as [G'' S''].
        split; [eapply grows_trans; [|eapply grows_trans]; eauto | congruence].
      * split; [eapply grows_trans; eauto | congruence].
Qed.

(** The transaction a call opened is still open when the enclosed work has
    settled, whatever that work was. *)
Lemma still_open {T} (fn : EntityManager -> prog T) w :
  tx_state (opened w) (snd (run (fn (TxManager (opened w))) (scope_world w))) = Some Open.
Proof.
  eapply grows_tx_state; [apply run_grows | apply tx_state_scope_world].
Qed.

(** ** Primary keys are never reused *)

Lemma lookup_alter_inv {A} (f : A -> A) x y (l : list A) a' :
  alter f x l !! y = Some a' ->
  exists a, l !! y = Some a /\ ((x <> y /\ a' = a) \/ (x = y /\ a' = f a)).
Proof.
  destruct (decide (x = y)) as [->|Hne].
  - rewrite list_lookup_alter_eq. destruct (l !! y) as [a|]; simpl; [|discriminate].
    intros [= <-]. eauto.
  - rewrite list_lookup_alter_ne by assumption. eauto.
Qed.

Lemma lookup_snoc_inv {A} (l : list A) a y b :
  (l ++ [a]) !! y = Some b ->
  l !! y = Some b \/ (y = length l /\ b = a).
Proof.
  intros H. destruct (decide (y < length l)) as [Hlt|Hge].
  - left. now rewrite lookup_app_l in H.
  - right. rewrite lookup_app_r in H by lia.
    destruct (y - length l) as [|n] eqn:E; simpl in H; [|now destruct n].
    split; [lia | congruence].
Qed.

Lemma below_mono d d' r :
  next_order_id d <= next_order_id d' -> next_item_id d <= next_item_id d' ->
  below d r -> below d' r.
Proof.
  intros Ho Hi (n & Hid & Hlt). exists n. split; [exact Hid|].
  destruct (row_kind r); simpl in *; lia.
Qed.

Lemma wf_tick d : wf_db d -> wf_db (tick d).
Proof. intros [R T P X]. constructor; simpl; eauto. Qed.

Lemma wf_new_runner d s o : wf_db d -> wf_db (set_txs (txs d ++ [mkTx s [] o]) d).
Proof.
  intros [R T P X]. constructor; simpl.
  - exact R.
  - intros x t r H Hr. apply lookup_snoc_inv in H as [H|[_ ->]]; [eauto|].
    simpl in Hr. now apply elem_of_nil in Hr.
  - intros x t r H Hs Hr. apply lookup_snoc_inv in H as [H|[_ ->]]; [eauto|].
    simpl in Hr. now apply elem_of_nil in Hr.
  - intros x y tx ty r Hne Hx Hy Hr.
    apply lookup_snoc_inv in Hx as [Hx|[_ ->]]; [|simpl in Hr; now apply elem_of_nil in Hr].
    apply lookup_snoc_inv in Hy as [Hy|[_ ->]]; [eauto|].
    simpl. apply not_elem_of_nil.
Qed.

Lemma wf_status d x s :
  wf_db d ->
  (forall t, txs d !! x = Some t -> tx_status t <> Committed) ->
  wf_db (set_txs (alter (with_status s) x (txs d)) d).
Proof.
  intros [R T P X] Hx. constructor; simpl.
  - exact R.
  - intros y t r H Hr.
    apply lookup_alter_inv in H as (t0 & H0 & [[_ ->]|[_ ->]]); eauto.
  - intros y t r H Hs Hr.
    apply lookup_alter_inv in H as (t0 & H0 & [[_ ->]|[<- ->]]); eauto.
  - intros y z ty tz r Hne Hy Hz Hr.
    apply lookup_alter_inv in Hy as (ty0 & Hy0 & Ey).
    apply lookup_alter_inv in Hz as (tz0 & Hz0 & Ez).
    assert (r ∈ tx_rows ty0) by (destruct Ey as [[_ ->]|[_ ->]]; exact Hr).
    assert (tx_rows tz = tx_rows tz0) as -> by (destruct Ez as [[_ ->]|[_ ->]]; reflexivity).
    eauto.
Qed.

Lemma wf_commit d x :
  wf_db d ->
  wf_db (set_txs (alter (with_status Committed) x (txs d))
           (set_rows (rows d ++ from_option tx_rows [] (txs d !! x)) d)).
Proof.
  intros [R T P X]. constructor; simpl.
  - intros r Hr. apply elem_of_app in Hr as [Hr|Hr]; [eauto|].
    destruct (txs d !! x) as [t|] eqn:E; simpl in Hr; [eauto | now apply elem_of_nil in Hr].
  - intros y t r H Hr.
    apply lookup_alter_inv in H as (t0 & H0 & [[_ ->]|[_ ->]]); eauto.
  - intros y t r H Hs Hr.
    apply lookup_alter_inv in H as (t0 & H0 & [[Hne ->]|[_ ->]]); [|now simpl in Hs].
    intros Hin. apply elem_of_app in Hin as [Hin|Hin]; [eapply P; eauto|].
    destruct (txs d !! x) as [tx|] eqn:E; simpl in Hin; [|now apply elem_of_nil in Hin].
    eapply (X y x); eauto.
  - intros y z ty tz r Hne Hy Hz Hr.
    apply lookup_alter_inv in Hy as (ty0 & Hy0 & Ey).
    apply lookup_alter_inv in Hz as (tz0 & Hz0 & Ez).
    assert (r ∈ tx_rows ty0) by (destruct Ey as [[_ ->]|[_ ->]]; exact Hr).
    assert (tx_rows tz = tx_rows tz0) as -> by (destruct Ez as [[_ ->]|[_ ->]]; reflexivity).
    eauto.
Qed.

Lemma not_below_next d r :
  row_id r = Some (next_id (row_kind r) d) -> ~ below d r.
Proof. intros H (n & Hn & Hlt). rewrite H in Hn. injection Hn as <-. lia. Qed.

Lemma below_next d d' r :
  row_id r = Some (next_id (row_kind r) d) ->
  next_id (row_kind r) d < next_id (row_kind r) d' ->
  below d' r.
Proof. intros H Hlt. exists (next_id (row_kind r) d). auto. Qed.

Ltac older :=
  eapply below_mono; [| |eauto];
  match goal with |- context [bump_id ?k _] => destruct k end; simpl; lia.

Ltac newest d H :=
  eapply (@below_next d); [exact H|];
  match goal with |- context [bump_id ?k _] => destruct k end; simpl; lia.

Lemma bump_id_rows k d : rows (bump_id k d) = rows d.
Proof. now destruct k. Qed.

Lemma bump_id_txs k d : txs (bump_id k d) = txs d.
Proof. now destruct k. Qed.

Lemma wf_insert_default d r :
  wf_db d -> row_id r = Some (next_id (row_kind r) d) ->
  wf_db (bump_id (row_kind r) (set_rows (rows d ++ [r]) d)).
Proof.
  intros [R T P X] Hr.
  constructor; rewrite ?bump_id_rows, ?bump_id_txs; simpl.
  - intros r' Hin. apply elem_of_app in Hin as [Hin|Hin]; [older|].
    apply list_elem_of_singleton in Hin as ->. newest d Hr.
  - intros x t r' H Hin. older.
  - intros x t r' H Hs Hin Hc. apply elem_of_app in Hc as [Hc|Hc]; [eapply P; eauto|].
    apply list_elem_of_singleton in Hc as ->. eapply not_below_next; eauto.
  - eauto.
Qed.

Lemma wf_insert_tx d x r :
  wf_db d -> row_id r = Some (next_id (row_kind r) d) ->
  wf_db (bump_id (row_kind r) (set_txs (alter (with_row r) x (txs d)) d)).
Proof.
  intros [R T P X] Hr.
  constructor; rewrite ?bump_id_rows, ?bump_id_txs; simpl.
  - intros r' Hin. older.
  - intros y t r' H Hin.
    apply lookup_alter_inv in H as (t0 & H0 & [[_ ->]|[_ ->]]); [older|].
    simpl in Hin. apply elem_of_app in Hin as [Hin|Hin]; [older|].
    apply list_elem_of_singleton in Hin as ->. newest d Hr.
  - intros y t r' H Hs Hin.
    apply lookup_alter_inv in H as (t0 & H0 & [[_ ->]|[_ ->]]); [eauto|].
    simpl in Hin, Hs. apply elem_of_app in Hin as [Hin|Hin]; [eauto|].
    apply list_elem_of_singleton in Hin as ->.
    intros Hc. eapply not_below_next; eauto.
  - intros y z ty tz r' Hne Hy Hz Hin.
    apply lookup_alter_inv in Hy as (ty0 & Hy0 & Ey).
    apply lookup_alter_inv in Hz as (tz0 & Hz0 & Ez).
    destruct Ey as [[_ ->]|[-> ->]], Ez as [[_ ->]|[Ezx ->]]; simpl in *.
    + eauto.
    + intros Hc. apply elem_of_app in Hc as [Hc|Hc]; [eapply X; eauto|].
      apply list_elem_of_singleton in Hc as ->. eapply not_below_next; eauto.
    + apply elem_of_app in Hin as [Hin|Hin]; [eauto|].
      apply list_elem_of_singleton in Hin as ->.
      intros Hc. eapply not_below_next; eauto.
    + congruence.
Qed.

Lemma wf_save {A} (ent : Entity A) m (a : A) w :
  wf w -> wf (snd (run_alone (manager_save m a w))).
Proof.
  unfold wf, manager_save. intros H.
  pose proof (entity_row_kind (next_id entity_kind (db w)) a) as Hk.
  pose proof (entity_row_id (next_id entity_kind (db w)) a) as Hi.
  remember (to_row (with_id (next_id entity_kind (db w)) a)) as r eqn:Er.
  rewrite <- Hk in Hi |- *. clear Hk Er.
  destruct m as [x|n]; simpl.
  - destruct (tx_state x w) as [[]|]; simpl; auto.
    now apply wf_tick, wf_insert_tx.
  - now apply wf_tick, wf_insert_default.
Qed.

Lemma wf_findOneOrFail m id w :
  wf w -> wf (snd (run_alone (manager_findOneOrFail m id w))).
Proof.
  unfold wf, manager_findOneOrFail. intros H.
  destruct (manager_rows m w); [destruct (find_order id l)|]; simpl; auto using wf_tick.
Qed.

Lemma wf_find m w : wf w -> wf (snd (run_alone (manager_find m w))).
Proof.
  unfold wf, manager_find. intros H.
  destruct (manager_rows m w); simpl; auto using wf_tick.
Qed.

Lemma wf_scope_world w : wf w -> wf (scope_world w).
Proof. unfold wf. simpl. intros H. now apply wf_tick, wf_new_runner. Qed.

Lemma tx_state_not_committed x w :
  tx_state x w = Some Open ->
  forall t, txs (db w) !! x = Some t -> tx_status t <> Committed.
Proof. unfold tx_state. intros H t E. rewrite E in H. simpl in H. congruence. Qed.

Lemma wf_conclude {T} x s (r : outcome T * world) :
  wf (snd r) -> wf (snd (conclude x s r)).
Proof.
  destruct r as [o w]. unfold wf, conclude. simpl. intros H.
  destruct o, (tx_state x w) as [[]|] eqn:E; simpl; auto.
  - now apply wf_tick, wf_commit.
  - apply wf_tick, wf_status; [assumption | now apply tx_state_not_committed].
Qed.

Lemma run_wf {A} (p : prog A) w : wf w -> wf (snd (run p w)).
Proof.
  revert w.
  induction p as [A a | A e | A k IH | A E ent m e k IH | A m id k IH | A m k IH | A k IH
                 | A T fn IHfn k IH | A T body IHb handler IHh k IH]; intros w Hw.
  - exact Hw.
  - exact Hw.
  - rewrite run_GetManager. destruct (ambient w); apply IH; exact Hw.
  - rewrite run_Save. pose proof (wf_save ent m e Hw) as H.
    destruct (run_alone (manager_save m e w)) as [[e'|x] w']; simpl in *; auto.
  - rewrite run_FindOneOrFail. pose proof (wf_findOneOrFail m id Hw) as H.
    destruct (run_alone (manager_findOneOrFail m id w)) as [[e'|x] w']; simpl in *; auto.
  - rewrite run_Find. pose proof (wf_find m Hw) as H.
    destruct (run_alone (manager_find m w)) as [[e'|x] w']; simpl in *; auto.
  - rewrite run_Random. apply IH. exact Hw.
  - rewrite run_DoTransactional.
    pose proof (IHfn (TxManager (opened w)) _ (wf_scope_world Hw)) as H.
    apply (wf_conclude (opened w) (als_store w)) in H.
    destruct (conclude _ _ _) as [[t|x] w']; simpl in *; auto.
  - rewrite run_TryCatch. pose proof (IHb w Hw) as H.
    destruct (run body w) as [[t|x] w']; simpl in *; auto.
    pose proof (IHh x w' H) as H'.
    destruct (run (handler x) w') as [[t|x'] w'']; simpl in *; auto.
Qed.

(** ** Facts about the worlds of a transactional call *)

Lemma tx_state_commit_world x w s :
  tx_state x w = Some s -> tx_state x (commit_world x w) = Some Committed.
Proof.
  unfold tx_state. simpl. rewrite list_lookup_alter_eq.
  destruct (txs (db w) !! x); simpl; [reflexivity | discriminate].
Qed.

Lemma tx_state_rollback_world x w s :
  tx_state x w = Some s -> tx_state x (rollback_world x w) = Some RolledBack.
Proof.
  unfold tx_state. simpl. rewrite list_lookup_alter_eq.
  destruct (txs (db w) !! x); simpl; [reflexivity | discriminate].
Qed.

Lemma tx_written_rollback_world x w : tx_written x (rollback_world x w) = tx_written x w.
Proof.
  unfold tx_written. simpl. rewrite list_lookup_alter_eq.
  now destruct (txs (db w) !! x).
Qed.

Lemma tx_state_beyond w : tx_state (opened w) w = None.
Proof.
  unfold tx_state, opened. now rewrite (lookup_ge_None_2 (txs (db w)) (length (txs (db w)))).
Qed.

Lemma opened_scope_world w : opened (scope_world w) = S (opened w).
Proof. unfold opened. simpl. rewrite length_app. simpl. lia. Qed.

Lemma ambient_scope_world w : ambient (scope_world w) = Some (TxManager (opened w)).
Proof.
  unfold ambient, map_lookup. simpl. rewrite lookup_app_last. simpl.
  apply lookup_singleton_eq.
Qed.

Lemma ambient_preserved w w' :
  store_valid w -> als_store w' = als_store w -> (exists h, heap w' = heap w ++ h) ->
  ambient w' = ambient w.
Proof.
  intros Hv Hs [h Hh]. unfold ambient, map_lookup. rewrite Hs, Hh.
  destruct (als_store w) as [l|] eqn:E; simpl; [|reflexivity].
  now rewrite lookup_app_l by auto.
Qed.

Lemma manager_rows_after_rollback w m l x :
  wf w -> tx_state x w = Some RolledBack ->
  manager_rows m w = Some l ->
  forall r, r ∈ tx_written x w -> r ∉ l.
Proof.
  intros Hw Hx Hm r Hr. unfold tx_written, tx_state in *.
  destruct (txs (db w) !! x) as [t|] eqn:E; simpl in *; [|now apply elem_of_nil in Hr].
  assert (Hnc : tx_status t <> Committed) by congruence.
  destruct m as [y|n]; simpl in Hm.
  - unfold tx_state, tx_written in Hm.
    destruct (txs (db w) !! y) as [ty|] eqn:Ey; simpl in Hm; [|discriminate].
    destruct (tx_status ty) eqn:Sy; try discriminate. injection Hm as <-.
    assert (x <> y) by (intros ->; congruence).
    apply not_elem_of_app. split.
    + eapply (wf_pending Hw); [exact E | exact Hnc | exact Hr].
    + eapply (wf_apart Hw); [| exact E | exact Ey | exact Hr]. assumption.
  - injection Hm as <-. eapply (wf_pending Hw); [exact E | exact Hnc | exact Hr].
Qed.

(** ** Units of work that write through their own manager only *)

Lemma ambient_same w w' :
  heap w' = heap w -> als_store w' = als_store w -> ambient w' = ambient w.
Proof. intros Hh Hs. unfold ambient, map_lookup. now rewrite Hh, Hs. Qed.

Lemma confined_run x A (p : prog A) w :
  confined (TxManager x) p ->
  ambient w = Some (TxManager x) ->
  same_outside_tx w (snd (run p w)).
Proof.
  intros Hc. revert w.
  induction Hc as [A a | A e | A k Hk IH | A E ent e k Hk IH | A m id k Hk IH
                  | A m k Hk IH | A k Hk IH | A T body handler k Hb IHb Hh IHh Hk IH];
    intros w Ha.
  - repeat split.
  - repeat split.
  - rewrite run_GetManager, Ha. destruct (IH (noted (TxManager x) w) Ha) as (R & H & S).
    repeat split; assumption.
  - rewrite run_Save.
    assert (Hs : same_outside_tx w (snd (run_alone (manager_save (TxManager x) e w)))).
    { unfold manager_save. simpl. destruct (tx_state x w) as [[]|]; simpl; repeat split.
      simpl. now rewrite bump_id_rows. }
    destruct (run_alone (manager_save (TxManager x) e w)) as [[e'|err] w']; simpl in *; [|exact Hs].
    destruct Hs as (R & H & S).
    destruct (IH e' w') as (R' & H' & S'); [rewrite <- Ha; now apply ambient_same|].
    repeat split; congruence.
  - rewrite run_FindOneOrFail.
    assert (Hs : same_outside_tx w (snd (run_alone (manager_findOneOrFail m id w)))).
    { unfold manager_findOneOrFail.
      destruct (manager_rows m w); [destruct (find_order id l)|]; simpl; repeat split. }
    destruct (run_alone (manager_findOneOrFail m id w)) as [[e'|err] w']; simpl in *; [|exact Hs].
    destruct Hs as (R & H & S).
    destruct (IH e' w') as (R' & H' & S'); [rewrite <- Ha; now apply ambient_same|].
    repeat split; congruence.
  - rewrite run_Find.
    assert (Hs : same_outside_tx w (snd (run_alone (manager_find m w)))).
    { unfold manager_find. destruct (manager_rows m w); simpl; repeat split. }
    destruct (run_alone (manager_find m w)) as [[e'|err] w']; simpl in *; [|exact Hs].
    destruct Hs as (R & H & S).
    destruct (IH e' w') as (R' & H' & S'); [rewrite <- Ha; now apply ambient_same|].
    repeat split; congruence.
  - rewrite run_Random. apply (IH (rng w (draws w)) (set_draws (S (draws w)) w) Ha).
  - rewrite run_TryCatch. destruct (IHb w Ha) as (R & H & S).
    destruct (run body w) as [[t|err] w']; simpl in *.
    + destruct (IH t w') as (R' & H' & S'); [rewrite <- Ha; now apply ambient_same|].
      repeat split; congruence.
    + destruct (IHh err w') as (R' & H' & S'); [rewrite <- Ha; now apply ambient_same|].
      destruct (run (handler err) w') as [[t|err'] w'']; simpl in *.
      * destruct (IH t w'') as (R'' & H'' & S'');
          [rewrite <- Ha; apply ambient_same; congruence|].
        repeat split; congruence.
      * repeat split; congruence.
Qed.

(** * The unit of work, claim by claim *)

Lemma wf_boot random : wf (boot random).
Proof.
  constructor; simpl; intros *.
  - intros H. now apply elem_of_nil in H.
  - intros H. now rewrite lookup_nil in H.
  - intros H. now rewrite lookup_nil in H.
  - intros _ H. now rewrite lookup_nil in H.
Qed.

(** C1.  For every work function [fn] passed to [doTransactional]: when the
    work fails with [e], the call fails with the same [e]; the transaction
    the call opened ends rolled back and the rollback commits nothing; no
    row written through that transaction is among the committed rows, nor
    can any manager read one afterwards; and when the work wrote through
    its own manager only, the committed rows are those from before the
    call. *)
Theorem doTransactional_failure_rolls_back
    {T} (fn : EntityManager -> prog T) (w w4 : world) (e : error) :
  wf w ->
  run (fn (TxManager (opened w))) (scope_world w) = (Err e, w4) ->
  exists w',
    run_alone (UnitOfWorkService.doTransactional (fun m => denote (fn m)) w) = (Err e, w') /\
    tx_state (opened w) w' = Some RolledBack /\
    rows (db w') = rows (db w4) /\
    tx_written (opened w) w' = tx_written (opened w) w4 /\
    (forall r, r ∈ tx_written (opened w) w' -> r ∉ rows (db w')) /\
    (forall m l, manager_rows m w' = Some l ->
       forall r, r ∈ tx_written (opened w) w' -> r ∉ l) /\
    (confined (TxManager (opened w)) (fn (TxManager (opened w))) ->
       rows (db w') = rows (db w)).
Proof.
  intros Hwf Hrun.
  pose proof (still_open fn w) as Hopen.
  pose proof (run_wf (fn (TxManager (opened w))) (wf_scope_world Hwf)) as Hwf4.
  rewrite Hrun in Hopen, Hwf4. simpl in Hopen, Hwf4.
  exists (set_store (als_store w) (rollback_world (opened w) w4)).
  assert (Hstate : tx_state (opened w) (set_store (als_store w) (rollback_world (opened w) w4))
                   = Some RolledBack) by exact (tx_state_rollback_world _ _ Hopen).
  assert (Hwf' : wf (set_store (als_store w) (rollback_world (opened w) w4))).
  { apply (wf_conclude (opened w) (als_store w) (Err (A:=T) e, w4)) in Hwf4.
    unfold conclude in Hwf4. now rewrite Hopen in Hwf4. }
  split; [|split; [|split; [|split; [|split; [|split]]]]].
  - rewrite run_alone_doTransactional by auto with uow.
    fold (run (fn (TxManager (opened w))) (scope_world w)). rewrite Hrun.
    unfold conclude. now rewrite Hopen.
  - exact Hstate.
  - reflexivity.
  - exact (tx_written_rollback_world _ _).
  - intros r Hr.
    eapply (@manager_rows_after_rollback _ (DefaultManager 0));
      [exact Hwf' | exact Hstate | reflexivity | exact Hr].
  - intros m l Hm r Hr. eapply manager_rows_after_rollback; eauto.
  - intros Hc.
    destruct (@confined_run _ _ _ (scope_world w) Hc (ambient_scope_world w)) as (R & _ & _).
    rewrite Hrun in R. simpl in R. exact R.
Qed.

Lemma doTransactional_failure_rolls_back_witness :
  wf (boot no_random) /\
  run (failing_work (TxManager 0)) (scope_world (boot no_random))
  = (Err (UserError "boom"), snd (run (failing_work (TxManager 0)) (scope_world (boot no_random)))) /\
  exists w',
    run_alone (UnitOfWorkService.doTransactional (fun m => denote (failing_work m)) (boot no_random))
    = (Err (UserError "boom"), w') /\
    tx_state 0 w' = Some RolledBack /\
    rows (db w') = [].
Proof.
  split; [apply wf_boot|]. split; [vm_compute; reflexivity|].
  destruct (@doTransactional_failure_rolls_back Order failing_work (boot no_random)
              (snd (run (failing_work (TxManager 0)) (scope_world (boot no_random))))
              (UserError "boom") (wf_boot no_random))
    as (w' & Hrun & Hst & _ & _ & _ & _ & Hrows).
  - vm_compute. reflexivity.
  - exists w'. split; [exact Hrun|]. split; [exact Hst|].
    apply Hrows. unfold failing_work. repeat constructor.
Defined.

(** C3.  [getManager] settles at once and never fails: when a store is
    active and holds a manager under the well-known key it returns that
    manager and changes nothing; otherwise it returns a manager newly made by
    [createEntityManager], which belongs to no transaction. *)
Theorem getManager_returns_ambient_or_default (w : world) :
  UnitOfWorkService.getManager w =
  match ambient w with
  | Some m => Done (Ok m) w
  | None => Done (Ok (DefaultManager (managers w))) (default_made w)
  end /\
  (ambient w =
   match als_store w with
   | Some l =>
       match heap w !! l with
       | Some o => map_entries o !! UnitOfWorkService.key
       | None => None
       end
   | None => None
   end) /\
  (exists m w', UnitOfWorkService.getManager w = Done (Ok m) w') /\
  managers (default_made w) = S (managers w).
Proof.
  split; [apply getManager_eq|]. split; [|split; [|reflexivity]].
  - unfold ambient, map_lookup. destruct (als_store w) as [l|]; simpl; [|reflexivity].
    now destruct (heap w !! l).
  - rewrite getManager_eq. destruct (ambient w); eauto.
Qed.

(** C4.  For every work function [fn] passed to [doTransactional]: when the
    work completes with [v], the call returns exactly [v], the transaction
    the call opened ends committed, and the rows written through it are
    appended to the committed rows. *)
Theorem doTransactional_success_commits
    {T} (fn : EntityManager -> prog T) (w w4 : world) (v : T) :
  run (fn (TxManager (opened w))) (scope_world w) = (Ok v, w4) ->
  exists w',
    run_alone (UnitOfWorkService.doTransactional (fun m => denote (fn m)) w) = (Ok v, w') /\
    tx_state (opened w) w = None /\
    tx_state (opened w) w' = Some Committed /\
    rows (db w') = rows (db w4) ++ tx_written (opened w) w4.
Proof.
  intros Hrun.
  pose proof (still_open fn w) as Hopen. rewrite Hrun in Hopen. simpl in Hopen.
  exists (set_store (als_store w) (commit_world (opened w) w4)).
  split; [|split; [|split]].
  - rewrite run_alone_doTransactional by auto with uow.
    fold (run (fn (TxManager (opened w))) (scope_world w)). rewrite Hrun.
    unfold conclude. now rewrite Hopen.
  - apply tx_state_beyond.
  - exact (tx_state_commit_world _ _ Hopen).
  - reflexivity.
Qed.

Lemma doTransactional_success_commits_witness :
  run (saving_work (TxManager 0)) (scope_world (boot no_random))
  = (Ok (mkOrder (Some 1) "2021-11-03" "Testing transaction" []),
     snd (run (saving_work (TxManager 0)) (scope_world (boot no_random)))) /\
  exists w',
    run_alone (UnitOfWorkService.doTransactional (fun m => denote (saving_work m)) (boot no_random))
    = (Ok (mkOrder (Some 1) "2021-11-03" "Testing transaction" []), w') /\
    tx_state 0 w' = Some Committed /\
    rows (db w') = [ROrder (mkOrder (Some 1) "2021-11-03" "Testing transaction" [])].
Proof.
  split; [vm_compute; reflexivity|].
  destruct (@doTransactional_success_commits Order saving_work (boot no_random)
              (snd (run (saving_work (TxManager 0)) (scope_world (boot no_random))))
              (mkOrder (Some 1) "2021-11-03" "Testing transaction" []))
    as (w' & Hrun & _ & Hst & Hrows).
  - vm_compute. reflexivity.
  - exists w'. split; [exact Hrun|]. split; [exact Hst|]. rewrite Hrows. reflexivity.
Defined.

(** C10.  [doTransactional fn] calls [fn] with the manager of the
    transaction it has just opened, the same manager that [getManager]
    yields inside the scope; a work function that returns its argument makes
    the call return that manager without [getManager] being asked. *)
Theorem doTransactional_passes_manager {T} (fn : EntityManager -> prog T) (w : world) :
  run_alone (UnitOfWorkService.doTransactional (fun m => denote (fn m)) w) =
  conclude (opened w) (als_store w) (run (fn (TxManager (opened w))) (scope_world w)) /\
  ambient (scope_world w) = Some (TxManager (opened w)) /\
  fst (run_alone (UnitOfWorkService.doTransactional (fun m => denote (Ret m)) w))
  = Ok (TxManager (opened w)) /\
  seen (snd (run_alone (UnitOfWorkService.doTransactional (fun m => denote (Ret m)) w)))
  = seen w /\
  fst (run_alone (UnitOfWorkService.doTransactional (fun _ => denote (GetManager Ret)) w))
  = Ok (TxManager (opened w)).
Proof.
  split; [apply run_alone_doTransactional; auto with uow|].
  split; [apply ambient_scope_world|].
  pose proof (@still_open _ (fun m => Ret m) w) as H1.
  pose proof (@still_open _ (fun _ => GetManager Ret) w) as H2.
  cbv beta in H1, H2.
  rewrite !run_alone_doTransactional by (intros; apply framed_denote).
  fold (run (Ret (TxManager (opened w))) (scope_world w)).
  fold (run (GetManager (@Ret EntityManager)) (scope_world w)).
  rewrite run_GetManager, ambient_scope_world in H2 |- *.
  rewrite run_Ret in *. simpl in H1, H2. unfold conclude.
  change (tx_state (opened w) (noted _ (scope_world w)))
    with (tx_state (opened w) (scope_world w)) in *.
  rewrite H1. repeat split.
  rewrite run_Ret.
  change (tx_state (opened w) (noted _ (scope_world w)))
    with (tx_state (opened w) (scope_world w)).
  now rewrite H1.
Qed.

Lemma store_valid_scope_world w : store_valid (scope_world w).
Proof. intros l. simpl. intros [= <-]. rewrite length_app. simpl. lia. Qed.

(** C6.  A call to [doTransactional] leaves the store of its caller as it
    was, both when the call returns its promise and when the promise has
    settled, with a result or with a failure; the Map objects the caller
    can reach are untouched, so the manager that was ambient before is
    ambient again.  In between, for the enclosed work, the manager of the
    new transaction is the ambient one, from the start of the work to its
    end. *)
Theorem scope_is_restored {T} (fn : EntityManager -> prog T) (w : world) :
  store_valid w ->
  als_store (world_of (UnitOfWorkService.doTransactional (fun m => denote (fn m)) w))
  = als_store w /\
  als_store (snd (run_alone (UnitOfWorkService.doTransactional (fun m => denote (fn m)) w)))
  = als_store w /\
  (exists h,
     heap (snd (run_alone (UnitOfWorkService.doTransactional (fun m => denote (fn m)) w)))
     = heap w ++ h) /\
  ambient (snd (run_alone (UnitOfWorkService.doTransactional (fun m => denote (fn m)) w)))
  = ambient w /\
  ambient (scope_world w) = Some (TxManager (opened w)) /\
  ambient (snd (run (fn (TxManager (opened w))) (scope_world w)))
  = Some (TxManager (opened w)).
Proof.
  intros Hv.
  assert (Hf : framed (UnitOfWorkService.doTransactional (fun m => denote (fn m))))
    by auto with uow.
  destruct (run_grows (fn (TxManager (opened w))) (scope_world w)) as [G S].
  assert (Hs : als_store (snd (run_alone
             (UnitOfWorkService.doTransactional (fun m => denote (fn m)) w))) = als_store w).
  { rewrite run_alone_doTransactional by auto with uow. apply conclude_store. }
  assert (Hh : exists h, heap (snd (run_alone
             (UnitOfWorkService.doTransactional (fun m => denote (fn m)) w))) = heap w ++ h).
  { rewrite run_alone_doTransactional by auto with uow.
    apply (@grows_conclude _ w _ G). }
  split; [apply Hf|]. split; [exact Hs|]. split; [exact Hh|].
  split; [now apply ambient_preserved|].
  split; [apply ambient_scope_world|].
  rewrite <- (ambient_scope_world w).
  apply ambient_preserved; [apply store_valid_scope_world | exact S | apply G].
Qed.

Lemma scope_is_restored_witness :
  store_valid (scope_world (boot no_random)) /\
  ambient (scope_world (boot no_random)) = Some (TxManager 0) /\
  ambient (scope_world (scope_world (boot no_random))) = Some (TxManager 1) /\
  ambient (snd (run_alone (UnitOfWorkService.doTransactional
                             (fun m => denote (failing_work m))
                             (scope_world (boot no_random)))))
  = Some (TxManager 0).
Proof.
  split; [apply store_valid_scope_world|].
  destruct (@scope_is_restored Order failing_work (scope_world (boot no_random))
              (@store_valid_scope_world (boot no_random))) as (_ & _ & _ & Ha & Hin & _).
  split; [apply ambient_scope_world|]. split; [exact Hin|].
  rewrite Ha. apply ambient_scope_world.
Defined.

Lemma tx_state_rollback_other x y w : x <> y -> tx_state y (rollback_world x w) = tx_state y w.
Proof. intros H. unfold tx_state. simpl. now rewrite list_lookup_alter_ne. Qed.

(** C7.  Every call to [doTransactional], also one made inside the scope of
    another call, makes a query runner that did not exist and a Map object
    that did not exist, and the manager ambient for its work is the manager
    of that new transaction, not the one of the enclosing call.  The two
    transactions stand apart: when the nested work succeeds and the outer
    work then fails, the nested transaction is committed, with its rows,
    and the outer one is rolled back. *)
Theorem nested_calls_are_independent
    {T} (inner : EntityManager -> prog T) (w w3 : world) (v : T) (e : error) :
  run (inner (TxManager (S (opened w)))) (scope_world (scope_world w)) = (Ok v, w3) ->
  tx_state (opened w) w = None /\
  tx_state (opened w) (scope_world w) = Some Open /\
  heap w !! length (heap w) = None /\
  als_store (scope_world w) = Some (length (heap w)) /\
  ambient (scope_world w) = Some (TxManager (opened w)) /\
  ambient (scope_world (scope_world w)) = Some (TxManager (S (opened w))) /\
  exists w',
    run (DoTransactional (fun _ => DoTransactional inner (fun _ => @Throw T e)) Ret) w
    = (Err e, w') /\
    tx_state (S (opened w)) w' = Some Committed /\
    tx_state (opened w) w' = Some RolledBack /\
    rows (db w') = rows (db w3) ++ tx_written (S (opened w)) w3.
Proof.
  intros Hrun.
  split; [apply tx_state_beyond|]. split; [apply tx_state_scope_world|].
  split; [now apply lookup_ge_None_2|]. split; [reflexivity|].
  split; [apply ambient_scope_world|].
  split; [rewrite ambient_scope_world, opened_scope_world; reflexivity|].
  pose proof (@still_open _ (fun _ => DoTransactional inner (fun _ => @Throw T e)) w) as Hout.
  pose proof (still_open inner (scope_world w)) as Hin.
  cbv beta in Hout.
  rewrite run_DoTransactional. rewrite run_DoTransactional in Hout |- *.
  rewrite opened_scope_world in *. rewrite Hrun in *. simpl in Hin.
  unfold conclude at 2. unfold conclude at 1 in Hout. rewrite Hin in *.
  rewrite run_Throw in Hout. rewrite run_Throw. cbn [snd] in Hout.
  unfold conclude. rewrite Hout.
  eexists. split; [reflexivity|]. split; [|split].
  - change (tx_state ?x (set_store _ ?w)) with (tx_state x w).
    rewrite tx_state_rollback_other by lia.
    exact (tx_state_commit_world _ _ Hin).
  - exact (tx_state_rollback_world _ _ Hout).
  - reflexivity.
Qed.

Lemma nested_calls_are_independent_witness :
  run (saving_work (TxManager 1)) (scope_world (scope_world (boot no_random)))
  = (Ok (mkOrder (Some 1) "2021-11-03" "Testing transaction" []),
     snd (run (saving_work (TxManager 1)) (scope_world (scope_world (boot no_random))))) /\
  exists w',
    run (DoTransactional
           (fun _ => DoTransactional saving_work (fun _ => @Throw Order (UserError "late")))
           Ret) (boot no_random)
    = (Err (UserError "late"), w') /\
    tx_state 1 w' = Some Committed /\
    tx_state 0 w' = Some RolledBack /\
    rows (db w') = [ROrder (mkOrder (Some 1) "2021-11-03" "Testing transaction" [])].
Proof.
  split; [vm_compute; reflexivity|].
  destruct (@nested_calls_are_independent Order saving_work (boot no_random)
              (snd (run (saving_work (TxManager 1)) (scope_world (scope_world (boot no_random)))))
              (mkOrder (Some 1) "2021-11-03" "Testing transaction" []) (UserError "late"))
    as (_ & _ & _ & _ & _ & _ & w' & Hrun & Hc & Hr & Hrows).
  - vm_compute. reflexivity.
  - exists w'. split; [exact Hrun|]. split; [exact Hc|]. split; [exact Hr|].
    rewrite Hrows. reflexivity.
Defined.

(** C9.  When no order with the identifier is among the rows that
    [OrderRepository.getById] reads, the call fails with the error
    EntityNotFound of [findOneOrFail]; the service and the controller pass
    that same error on; one query was made, and the rows are as before. *)
Theorem getById_not_found (idOrder : nat) (w : world) (l : list Row) :
  visible w = Some l ->
  find_order idOrder l = None ->
  exists w',
    run (OrderRepository.getById idOrder) w = (Err (EntityNotFound KOrder idOrder), w') /\
    run (OrderService.getById idOrder) w = (Err (EntityNotFound KOrder idOrder), w') /\
    run (OrderController.getById idOrder) w = (Err (EntityNotFound KOrder idOrder), w') /\
    is_not_found (EntityNotFound KOrder idOrder) = true /\
    queries (db w') = S (queries (db w)) /\
    rows (db w') = rows (db w) /\
    txs (db w') = txs (db w).
Proof.
  unfold visible. intros Hv Hf.
  unfold OrderController.getById, OrderService.getById, OrderRepository.getById.
  rewrite run_GetManager, run_FindOneOrFail. destruct (ambient w) as [m|].
  - rewrite run_FindOneOrFail. unfold manager_findOneOrFail.
    change (manager_rows m (noted m w)) with (manager_rows m w).
    rewrite Hv, Hf. simpl. eexists. repeat split.
  - unfold manager_findOneOrFail. simpl. injection Hv as <-. rewrite Hf. simpl.
    eexists. repeat split.
Qed.

Lemma getById_not_found_witness :
  visible (boot no_random) = Some [] /\
  find_order 7 [] = None /\
  exists w',
    run (OrderController.getById 7) (boot no_random) = (Err (EntityNotFound KOrder 7), w') /\
    queries (db w') = 1.
Proof.
  split; [reflexivity|]. split; [reflexivity|].
  destruct (@getById_not_found 7 (boot no_random) [] eq_refl eq_refl)
    as (w' & _ & _ & H & _ & Hq & _).
  exists w'. split; [exact H | exact Hq].
Defined.

(** ** Scenario A *)

Lemma run_saveOrder (order : Order) x w :
  ambient w = Some (TxManager x) ->
  tx_state x w = Some Open ->
  run (OrderRepository.saveOrder order) w =
  (Ok (with_id (next_order_id (db w)) order),
   set_db (tick (bump_id KOrder
             (set_txs (alter (with_row (ROrder (with_id (next_order_id (db w)) order))) x
                         (txs (db w))) (db w))))
     (noted (TxManager x) w)).
Proof.
  intros Ha Hx. unfold OrderRepository.saveOrder.
  rewrite run_GetManager, Ha, run_Save. unfold manager_save.
  change (tx_state x (noted (TxManager x) w)) with (tx_state x w). rewrite Hx.
  reflexivity.
Qed.

Lemma run_saveOrderItem (item : Item) x w :
  (2 < Math_floor (rng w (draws w) * inject_Z 5))%Z ->
  ambient w = Some (TxManager x) ->
  tx_state x w = Some Open ->
  run (OrderRepository.saveOrderItem item) w =
  (Ok (with_id (next_item_id (db w)) item),
   set_db (tick (bump_id KItem
             (set_txs (alter (with_row (RItem (with_id (next_item_id (db w)) item))) x
                         (txs (db w))) (db w))))
     (noted (TxManager x) (set_draws (S (draws w)) w))).
Proof.
  intros Hr Ha Hx. unfold OrderRepository.saveOrderItem.
  rewrite run_Random. cbv zeta.
  destruct (Z.leb_spec (Math_floor (rng w (draws w) * inject_Z 5)) 2) as [Hle|_]; [lia|].
  rewrite run_GetManager.
  change (ambient (set_draws (S (draws w)) w)) with (ambient w). rewrite Ha, run_Save.
  unfold manager_save.
  change (tx_state x (noted (TxManager x) (set_draws (S (draws w)) w))) with (tx_state x w).
  rewrite Hx. reflexivity.
Qed.

Lemma filter_none {A} (P : A -> Prop) `{forall a, Decision (P a)} (l : list A) :
  (forall a, a ∈ l -> ~ P a) -> filter P l = [].
Proof.
  induction l as [|a l IH]; intros Hl; [reflexivity|].
  rewrite filter_cons. destruct (decide (P a)) as [Hp|_].
  - exfalso. apply (Hl a); [left | exact Hp].
  - apply IH. intros b Hb. apply Hl. now right.
Qed.

Lemma elem_of_orders_in o l : o ∈ orders_in l -> ROrder o ∈ l.
Proof.
  unfold orders_in. rewrite list_elem_of_omap. intros ([o'|i] & Hin & E); [|discriminate].
  now injection E as ->.
Qed.

Lemma items_of_none id l :
  (forall i, RItem i ∈ l -> item_order i <> Some id) -> items_of id l = [].
Proof.
  induction l as [|r l IH]; intros Hl; [reflexivity|].
  unfold items_of in *. simpl. destruct r as [o|i].
  - apply IH. intros i Hi. apply Hl. now right.
  - destruct (decide (item_order i = Some id)) as [E|_].
    + exfalso. apply (Hl i); [left | exact E].
    + apply IH. intros i' Hi. apply Hl. now right.
Qed.

Lemma find_order_fresh id l (o : Order) (i : Item) :
  (forall o', ROrder o' ∈ l -> order_id o' <> Some id) ->
  (forall i', RItem i' ∈ l -> item_order i' <> Some id) ->
  order_id o = Some id -> item_order i = Some id ->
  find_order id (l ++ [ROrder o; RItem i]) =
  Some (mkOrder (Some id) (order_date o) (order_description o) [i]).
Proof.
  intros Ho Hi Eo Ei. unfold find_order, orders_in.
  rewrite omap_app, filter_app. fold (orders_in l).
  rewrite (filter_none (fun o => order_id o = Some id) (l:=orders_in l))
    by (intros o' Hin; apply Ho; now apply elem_of_orders_in).
  simpl. rewrite filter_cons. destruct (decide (order_id o = Some id)) as [_|N]; [|contradiction].
  simpl. unfold load_items. rewrite Eo. simpl. f_equal. f_equal.
  unfold items_of. rewrite omap_app. fold (items_of id l).
  rewrite (items_of_none Hi). simpl.
  destruct (decide (item_order i = Some id)) as [_|N]; [reflexivity | contradiction].
Qed.

(** C8.  Scenario A.  The request starts outside any scope; the draw of
    [Math.random] for the one item does not trigger the injected failure
    ([rand > 2]); the next order key is not in use.  Then creating the order
    of the README through [createFirstWay], and just the same through the
    interceptor of [createSecondWay], returns the order, commits the
    transaction with the order row and the item row appended, and
    [getById] afterwards returns the order with its one item. *)
Theorem scenario_A_order_and_item_persisted (w : world) :
  als_store w = None ->
  (2 < Math_floor (rng w (draws w) * inject_Z 5))%Z ->
  (forall o, ROrder o ∈ rows (db w) -> order_id o <> Some (next_order_id (db w))) ->
  (forall i, RItem i ∈ rows (db w) -> item_order i <> Some (next_order_id (db w))) ->
  exists w' w'',
    run (OrderController.createFirstWay readme_order) w
    = (Ok (mkOrder (Some (next_order_id (db w))) "2021-11-03" "Testing transaction" []), w') /\
    run_alone (OrderController.secondWay readme_order w)
    = (Ok (Some (mkOrder (Some (next_order_id (db w))) "2021-11-03" "Testing transaction" [])), w') /\
    tx_state (opened w) w' = Some Committed /\
    rows (db w') =
      rows (db w) ++
      [ROrder (mkOrder (Some (next_order_id (db w))) "2021-11-03" "Testing transaction" []);
       RItem (mkItem (Some (next_item_id (db w))) "T-Shirt" 1 (Some (next_order_id (db w))))] /\
    run (OrderController.getById (next_order_id (db w))) w'
    = (Ok (mkOrder (Some (next_order_id (db w))) "2021-11-03" "Testing transaction"
             [mkItem (Some (next_item_id (db w))) "T-Shirt" 1 (Some (next_order_id (db w)))]),
       w'').
Proof.
  intros Hs Hr Ho Hi.
  assert (Hwork : exists w4,
    run (OrderService.createOrder readme_order) (scope_world w)
    = (Ok (mkOrder (Some (next_order_id (db w))) "2021-11-03" "Testing transaction" []), w4) /\
    tx_state (opened w) w4 = Some Open /\
    rows (db w4) = rows (db w) /\
    tx_written (opened w) w4 =
      [ROrder (mkOrder (Some (next_order_id (db w))) "2021-11-03" "Testing transaction" []);
       RItem (mkItem (Some (next_item_id (db w))) "T-Shirt" 1 (Some (next_order_id (db w))))]).
  { unfold OrderService.createOrder. cbv zeta.
    rewrite run_pbind.
    rewrite (@run_saveOrder _ (opened w)) by (apply ambient_scope_world || apply tx_state_scope_world).
    rewrite run_pbind. cbn [dto_items readme_order OrderService.saveItems].
    rewrite run_pbind.
    erewrite (@run_saveOrderItem _ (opened w)); cycle 1.
    - exact Hr.
    - exact (ambient_scope_world w).
    - unfold tx_state, opened. simpl. rewrite alter_app_last, lookup_app_last. reflexivity.
    - rewrite !run_Ret. eexists. split; [reflexivity|].
      unfold tx_state, tx_written, opened. simpl.
      rewrite !alter_app_last, !lookup_app_last. simpl. repeat split. }
  destruct Hwork as (w4 & Hrun & Hopen & Hrows & Hwritten).
  exists (set_store (als_store w) (commit_world (opened w) w4)).
  eexists.
  split; [|split; [|split; [|split]]].
  - unfold OrderController.createFirstWay.
    rewrite run_DoTransactional, Hrun. unfold conclude. rewrite Hopen. apply run_Ret.
  - unfold OrderController.secondWay, TransactionStorageInterceptor.intercept.
    rewrite run_alone_doTransactionalCallHandler by (apply framed_last_value).
    unfold handler_of, route, OrderController.createSecondWay, toPromise.
    cbn [handle observable_of last_value].
    rewrite run_alone_bind, run_alone_await by apply framed_denote.
    fold (run (OrderService.createOrder readme_order) (scope_world w)).
    pose proof (proj2 (run_grows (OrderService.createOrder readme_order) (scope_world w))) as Hst.
    rewrite Hrun in Hst |- *. cbn [snd] in Hst. rewrite <- Hst, set_store_same.
    cbn [run_alone ret]. unfold conclude. now rewrite Hopen.
  - exact (tx_state_commit_world _ _ Hopen).
  - simpl. now rewrite Hrows, Hwritten.
  - unfold OrderController.getById, OrderService.getById, OrderRepository.getById.
    rewrite run_GetManager.
    assert (Ha : ambient (set_store (als_store w) (commit_world (opened w) w4)) = None)
      by (unfold ambient; simpl; now rewrite Hs).
    rewrite Ha, run_FindOneOrFail. unfold manager_findOneOrFail. simpl.
    rewrite Hrows, Hwritten.
    rewrite (@find_order_fresh (next_order_id (db w)) (rows (db w))) by (assumption || reflexivity).
    reflexivity.
Qed.

Lemma scenario_A_order_and_item_persisted_witness :
  als_store (boot (fun _ => 7 # 10)) = None /\
  (2 < Math_floor ((7 # 10) * inject_Z 5)%Q)%Z /\
  exists w' w'',
    run (OrderController.createFirstWay readme_order) (boot (fun _ => 7 # 10))
    = (Ok (mkOrder (Some 1) "2021-11-03" "Testing transaction" []), w') /\
    run (OrderController.getById 1) w'
    = (Ok (mkOrder (Some 1) "2021-11-03" "Testing transaction"
             [mkItem (Some 1) "T-Shirt" 1 (Some 1)]), w'').
Proof.
  split; [reflexivity|]. split; [reflexivity|].
  destruct (@scenario_A_order_and_item_persisted (boot (fun _ => 7 # 10)))
    as (w' & w'' & H1 & _ & _ & _ & H2).
  - reflexivity.
  - reflexivity.
  - intros o H. now apply elem_of_nil in H.
  - intros i H. now apply elem_of_nil in H.
  - exists w', w''. split; [exact H1 | exact H2].
Defined.

(** ** The interceptor against its description *)

Lemma last_cons_some {T} (v : T) vs :
  last (v :: vs) = match last vs with Some u => Some u | None => Some v end.
Proof.
  destruct vs as [|u vs]; [reflexivity|].
  change (last (v :: u :: vs)) with (last (u :: vs)).
  destruct (last (u :: vs)) eqn:E; [reflexivity|].
  now apply last_None in E.
Qed.

Lemma run_alone_last_value {T} (s : stream T) (l : option T) w :
  run_alone (last_value l (observable_of s) w) =
  match run (collect s) w with
  | (Ok vs, w') => (Ok (match last vs with Some u => Some u | None => l end), w')
  | (Err e, w') => (Err e, w')
  end.
Proof.
  revert l w. induction s as [| e | v rest IH | A work k IH]; intros l w.
  - reflexivity.
  - reflexivity.
  - cbn [observable_of last_value collect]. rewrite IH, run_pbind.
    destruct (run (collect rest) w) as [[vs|e] w']; [|reflexivity].
    rewrite run_Ret, last_cons_some. now destruct (last vs).
  - cbn [observable_of last_value collect].
    rewrite run_alone_bind, run_alone_await, run_pbind by apply framed_denote.
    fold (run work w).
    pose proof (proj2 (run_grows work w)) as Hst.
    destruct (run work w) as [[a|e] w']; cbn [snd] in Hst;
      rewrite <- Hst, set_store_same; [apply IH | reflexivity].
Qed.

Lemma run_alone_toPromise {T} (s : stream T) w :
  run_alone (toPromise (observable_of s) w) =
  run (pbind (collect s) (fun vs => Ret (last vs))) w.
Proof.
  unfold toPromise. rewrite run_alone_last_value, run_pbind.
  destruct (run (collect s) w) as [[vs|e] w']; [|reflexivity].
  rewrite run_Ret. now destruct (last vs).
Qed.

(** C5.  The interceptor, through [doTransactionalCallHandler], does what
    [doTransactional] does for the same enclosed work: for every
    continuation [next] it ends as the described wrapper ends, in the same
    world.  When the continuation fails anywhere, with [e], before it
    completes, the call fails with [e] and the transaction it opened is
    rolled back; when it completes, the transaction is committed after the
    last value has arrived, and that value is the result. *)
Theorem interceptor_refines_doTransactional {T} (next : stream T) (w : world) :
  run_alone (TransactionStorageInterceptor.intercept tt (handler_of next) w)
  = run (runTransactionalAroundHandler next) w /\
  run_alone (TransactionStorageInterceptor.intercept tt (handler_of next) w)
  = run_alone (UnitOfWorkService.doTransactional
                 (fun _ => denote (pbind (collect next) (fun vs => Ret (last vs)))) w) /\
  match run (collect next) (scope_world w) with
  | (Err e, w4) =>
      exists w',
        run_alone (TransactionStorageInterceptor.intercept tt (handler_of next) w) = (Err e, w') /\
        tx_state (opened w) w' = Some RolledBack /\
        rows (db w') = rows (db w4)
  | (Ok vs, w4) =>
      exists w',
        run_alone (TransactionStorageInterceptor.intercept tt (handler_of next) w)
        = (Ok (last vs), w') /\
        tx_state (opened w) w' = Some Committed /\
        rows (db w') = rows (db w4) ++ tx_written (opened w) w4
  end.
Proof.
  unfold TransactionStorageInterceptor.intercept.
  rewrite run_alone_doTransactionalCallHandler by (apply framed_last_value).
  cbn [handler_of handle]. rewrite run_alone_toPromise.
  pose proof (@still_open _ (fun _ => pbind (collect next) (fun vs => Ret (last vs))) w) as Hopen.
  cbv beta in Hopen.
  split; [|split].
  - unfold runTransactionalAroundHandler. rewrite run_DoTransactional.
    destruct (conclude _ _ _) as [[t|e] w']; reflexivity.
  - rewrite run_alone_doTransactional by (intros; apply framed_denote). reflexivity.
  - rewrite run_pbind in Hopen |- *.
    destruct (run (collect next) (scope_world w)) as [[vs|e] w4].
    + rewrite run_Ret in Hopen |- *. cbn [snd] in Hopen.
      unfold conclude. rewrite Hopen. eexists. split; [reflexivity|].
      split; [exact (tx_state_commit_world _ _ Hopen) | reflexivity].
    + cbn [snd] in Hopen. unfold conclude. rewrite Hopen. eexists. split; [reflexivity|].
      split; [exact (tx_state_rollback_world _ _ Hopen) | reflexivity].
Qed.

(** * Proofs: interleaved logical executions *)

(** ** Extension, isolation and the combinators *)

Lemma ext_refl w : ext w w.
Proof. split; auto. Qed.

Lemma ext_trans w1 w2 w3 : ext w1 w2 -> ext w2 w3 -> ext w1 w3.
Proof. intros [O1 C1] [O2 C2]. split; auto. Qed.

Lemma ext_same w w' : txs (db w') = txs (db w) -> heap w' = heap w -> ext w w'.
Proof. intros Ht Hh. unfold ext, owner, creator. rewrite Ht, Hh. auto. Qed.

Lemma ext_enter t w : ext w (enter t w).
Proof. now apply ext_same. Qed.

Lemma owned_by_ext t w w' m : ext w w' -> owned_by t w m -> owned_by t w' m.
Proof. intros [O _]. destruct m; simpl; auto. Qed.

Lemma isolated_same w w' :
  isolated w -> ext w w' -> seen w' = seen w -> heap w' = heap w -> isolated w'.
Proof.
  intros [S H] E Hs Hh. constructor; rewrite ?Hs, ?Hh.
  - intros t m Hin. eapply owned_by_ext; eauto.
  - intros l o m Hl Hm. eapply owned_by_ext; eauto.
Qed.

Lemma at_home_store t w s :
  running w = t -> (forall l, s = Some l -> creator w l = Some t) ->
  at_home t (set_store s w).
Proof. intros Hr Hs. split; [exact Hr | exact Hs]. Qed.

Lemma safe_base t {A} w0 w1 (r : res A) : ext w0 w1 -> safe t w1 r -> safe t w0 r.
Proof.
  intros E S. destruct S as [o w I E' H | w k I E' H K].
  - constructor; eauto using ext_trans.
  - constructor; eauto using ext_trans.
Qed.

Lemma safe_world_of t {A} w0 (r : res A) :
  safe t w0 r -> isolated (world_of r) /\ ext w0 (world_of r) /\ at_home t (world_of r).
Proof. destruct 1; simpl; auto. Qed.

Lemma safe_bind_res t {A B} w0 (r : res A) (f : A -> M B) :
  safe t w0 r ->
  (forall a w1, isolated w1 -> at_home t w1 -> ext w0 w1 -> safe t w1 (f a w1)) ->
  safe t w0 (bind_res r f).
Proof.
  intros S. induction S as [w0 o w I E H | w0 w k I E H K IH]; intros Hf; simpl.
  - destruct o as [a|e]; [|now constructor].
    eapply safe_base; [exact E|]. apply Hf; auto.
  - constructor; auto. intros w' I' E'. apply IH; auto.
    intros a w1 I1 H1 E1. apply Hf; auto.
    eauto using ext_trans, ext_enter.
Qed.

Lemma safe_catch_res t {A} w0 (r : res A) (h : error -> M A) :
  safe t w0 r ->
  (forall e w1, isolated w1 -> at_home t w1 -> ext w0 w1 -> safe t w1 (h e w1)) ->
  safe t w0 (catch_res r h).
Proof.
  intros S. induction S as [w0 o w I E H | w0 w k I E H K IH]; intros Hh; simpl.
  - destruct o as [a|e]; [now constructor|].
    eapply safe_base; [exact E|]. apply Hh; auto.
  - constructor; auto. intros w' I' E'. apply IH; auto.
    intros e w1 I1 H1 E1. apply Hh; auto.
    eauto using ext_trans, ext_enter.
Qed.

Lemma safe_resume_then t {A} w0 (r : res A) s :
  safe t w0 r ->
  (forall l, s = Some l -> creator (world_of r) l = Some t) ->
  safe t w0 (resume_then s r).
Proof.
  intros S. induction S as [w0 o w I E H | w0 w k I E H K IH]; intros Hs; simpl in *.
  - constructor; auto. intros w' I' E'. constructor.
    + eapply isolated_same; [exact I' | | reflexivity | reflexivity]. now apply ext_same.
    + now apply ext_same.
    + apply at_home_store; [reflexivity|]. intros l Hl. apply E'. auto.
  - constructor; auto. intros w' I' E'. apply IH; auto.
    intros l Hl.
    destruct (safe_world_of (K w' I' E')) as (_ & E'' & _).
    apply E'', E'. auto.
Qed.

Lemma good_ret t {A} (a : A) : good t (ret a).
Proof. intros w I H. constructor; auto using ext_refl. Qed.

Lemma good_throw t {A} e : good t (@throw A e).
Proof. intros w I H. constructor; auto using ext_refl. Qed.

Lemma good_bind t {A B} (m : M A) (f : A -> M B) :
  good t m -> (forall a, good t (f a)) -> good t (bind m f).
Proof.
  intros Hm Hf w I H. unfold bind. apply safe_bind_res; [now apply Hm|].
  intros a w1 I1 H1 _. now apply Hf.
Qed.

Lemma good_try_catch t {A} (m : M A) (h : error -> M A) :
  good t m -> (forall e, good t (h e)) -> good t (try_catch m h).
Proof.
  intros Hm Hh w I H. unfold try_catch. apply safe_catch_res; [now apply Hm|].
  intros e w1 I1 H1 _. now apply Hh.
Qed.

Lemma safe_await t {A} w0 w (m : M A) :
  safe t w0 (m w) -> safe t w0 (await m w).
Proof.
  intros S. unfold await. apply safe_resume_then; [exact S|].
  destruct (safe_world_of S) as (_ & _ & [_ Hs]). exact Hs.
Qed.

Lemma good_await t {A} (m : M A) : good t m -> good t (await m).
Proof. intros Hm w I H. apply safe_await. now apply Hm. Qed.

Lemma safe_als_run t {A} l (callback : M A) w :
  isolated w -> at_home t w -> creator w l = Some t ->
  (forall w1, isolated w1 -> at_home t w1 -> als_store w1 = Some l -> ext w w1 ->
              safe t w1 (callback w1)) ->
  safe t w (als_run l callback w).
Proof.
  intros I [Hr Hs] Hl Hc. unfold als_run.
  assert (S : safe t (set_store (Some l) w) (callback (set_store (Some l) w))).
  { apply Hc; [| | reflexivity | now apply ext_same].
    - eapply isolated_same; [exact I | | reflexivity | reflexivity]. now apply ext_same.
    - apply at_home_store; [exact Hr|]. now intros ? [= <-]. }
  destruct S as [o w' I' E' H' | w' k I' E' H' K].
  - constructor.
    + eapply isolated_same; [exact I' | | reflexivity | reflexivity]. now apply ext_same.
    + eapply ext_trans; [|now apply (@ext_same w')]. exact E'.
    + apply at_home_store; [apply H'|]. intros l' Hl'. apply E'. now apply Hs.
  - constructor.
    + eapply isolated_same; [exact I' | | reflexivity | reflexivity]. now apply ext_same.
    + eapply ext_trans; [|now apply (@ext_same w')]. exact E'.
    + apply at_home_store; [apply H'|]. intros l' Hl'. apply E'. now apply Hs.
    + intros w'' I'' E''. apply K; [exact I''|].
      eapply ext_trans; [|exact E'']. now apply ext_same.
Qed.

(** ** The primitives and the service *)

Lemma good_harmless t {A} (m : M A) : harmless m -> good t m.
Proof.
  intros Hm w I [Hr Hs]. destruct (Hm w) as (o & w' & -> & E & Hseen & Hheap & Hrun & Hst).
  constructor; [eapply isolated_same; eauto | exact E |].
  split; [congruence|]. intros l Hl. apply E, Hs. congruence.
Qed.

Lemma owner_alter (f : Transaction -> Transaction) (x y : nat) (l : list Transaction) :
  (forall t, tx_owner (f t) = tx_owner t) ->
  tx_owner <$> alter f x l !! y = tx_owner <$> l !! y.
Proof.
  intros Hf. destruct (decide (x = y)) as [->|Hne].
  - rewrite list_lookup_alter_eq. destruct (l !! y); simpl; [now rewrite Hf | reflexivity].
  - now rewrite list_lookup_alter_ne.
Qed.

Lemma ext_alter (f : Transaction -> Transaction) x w d :
  (forall t, tx_owner (f t) = tx_owner t) ->
  txs d = alter f x (txs (db w)) ->
  ext w (set_db d w).
Proof.
  intros Hf Hd. split; [|auto]. unfold owner. simpl. intros y t. rewrite Hd.
  now rewrite owner_alter.
Qed.

Lemma ext_snoc a w d :
  txs d = txs (db w) ++ [a] -> ext w (set_db d w).
Proof.
  intros Hd. split; [|auto]. unfold owner. simpl. intros y t. rewrite Hd.
  destruct (txs (db w) !! y) as [t0|] eqn:E; [|discriminate].
  now rewrite (lookup_app_l_Some _ _ _ _ E).
Qed.

Ltac harmless_tac :=
  let w := fresh "w" in
  intros w; repeat (unfold tx_state, manager_rows; simpl);
  repeat match goal with
         | |- context [match ?x with _ => _ end] => destruct x; simpl
         end;
  do 2 eexists; (split; [reflexivity|]); (split; [|auto]);
  first [ apply ext_refl
        | now apply ext_same
        | eapply ext_alter; [|simpl; rewrite ?bump_id_txs; reflexivity]; now intros [] ].

Lemma harmless_Math_random : harmless Math_random.
Proof. harmless_tac. Qed.
Lemma harmless_startTransaction x : harmless (startTransaction x).
Proof. unfold startTransaction. harmless_tac. Qed.
Lemma harmless_commitTransaction x : harmless (commitTransaction x).
Proof. unfold commitTransaction. harmless_tac. Qed.
Lemma harmless_rollbackTransaction x : harmless (rollbackTransaction x).
Proof. unfold rollbackTransaction. harmless_tac. Qed.
Lemma harmless_manager_findOneOrFail m id : harmless (manager_findOneOrFail m id).
Proof. unfold manager_findOneOrFail. harmless_tac. Qed.
Lemma harmless_manager_find m : harmless (manager_find m).
Proof. unfold manager_find. harmless_tac. Qed.

Lemma harmless_manager_save {A} (ent : Entity A) m (a : A) : harmless (manager_save m a).
Proof.
  intros w. unfold manager_save. destruct m as [x|n]; simpl.
  - destruct (tx_state x w) as [[]|]; simpl;
      do 2 eexists; (split; [reflexivity|]); (split; [|auto]); try apply ext_refl.
    eapply ext_alter; [|simpl; rewrite bump_id_txs; reflexivity]. now intros [].
  - do 2 eexists. split; [reflexivity|]. split; [|auto].
    apply ext_same; [|reflexivity]. simpl. now rewrite bump_id_txs.
Qed.

Lemma ambient_owned t w m :
  isolated w -> at_home t w -> ambient w = Some m -> owned_by t w m.
Proof.
  intros I [_ Hs] Ha. unfold ambient, map_lookup in Ha.
  destruct (als_store w) as [l|] eqn:El; simpl in Ha; [|discriminate].
  destruct (heap w !! l) as [o|] eqn:Eo; simpl in Ha; [|discriminate].
  pose proof (Hs l eq_refl) as Hc. unfold creator in Hc. rewrite Eo in Hc.
  injection Hc as <-. eapply (iso_heap I); eauto.
Qed.

Lemma isolated_noted t w m :
  isolated w -> running w = t -> owned_by t w m -> isolated (noted m w).
Proof.
  intros [S H] Hr Hm. constructor; simpl.
  - intros t' m' Hin. apply elem_of_app in Hin as [Hin|Hin]; [now apply S|].
    apply list_elem_of_singleton in Hin. injection Hin as -> ->. now rewrite Hr.
  - exact H.
Qed.

(** [getManager], with the record the event loop keeps of its result. *)
Lemma good_getManager t {A} (f : EntityManager -> M A) :
  (forall m, good t (f m)) ->
  good t (let* m := UnitOfWorkService.getManager in observe m;; f m).
Proof.
  intros Hf w I H. unfold bind at 1. rewrite getManager_eq.
  destruct (ambient w) as [m|] eqn:Ha; simpl.
  - apply (@safe_base t A w (noted m w)); [now apply ext_same|].
    apply Hf; [|exact H].
    eapply isolated_noted; [exact I | apply H | eapply ambient_owned; eauto].
  - apply (@safe_base t A w (noted (DefaultManager (managers w)) (default_made w)));
      [now apply ext_same|].
    apply Hf; [|exact H].
    apply (@isolated_noted t); [|apply H|exact Logic.I].
    eapply isolated_same; [exact I | now apply ext_same | reflexivity | reflexivity].
Qed.

Lemma creator_alter_put key m (x l : nat) (h : list MapObject) :
  map_creator <$> alter (put key m) x h !! l = map_creator <$> h !! l.
Proof.
  destruct (decide (x = l)) as [->|Hne].
  - rewrite list_lookup_alter_eq. now destruct (h !! l).
  - now rewrite list_lookup_alter_ne.
Qed.

Lemma safe_in_scope t {T} l m (work : M T) w :
  isolated w -> at_home t w -> als_store w = Some l -> owned_by t w m ->
  good t work ->
  safe t w (UnitOfWorkService.in_scope m work w).
Proof.
  intros I H Hl Hm Hw. unfold UnitOfWorkService.in_scope, bind, als_getStore. simpl.
  rewrite Hl. simpl.
  set (w1 := set_heap _ w).
  assert (E : ext w w1).
  { split; [auto|]. intros l' t'. unfold creator, w1. simpl. now rewrite creator_alter_put. }
  assert (I1 : isolated w1).
  { destruct I as [S Hh]. constructor.
    - intros t' m' Hin. eapply owned_by_ext; [exact E|]. now apply S.
    - intros l' o' m' Ho Hk. unfold w1 in Ho. simpl in Ho.
      apply lookup_alter_inv in Ho as (o & Ho & [[_ ->]|[<- ->]]).
      + eapply owned_by_ext; [exact E|]. eapply Hh; eauto.
      + simpl in Hk. rewrite lookup_insert_eq in Hk. injection Hk as <-. simpl.
        destruct H as [_ Hs]. pose proof (Hs l Hl) as Hc. unfold creator in Hc.
        rewrite Ho in Hc. injection Hc as ->.
        eapply owned_by_ext; [exact E | exact Hm]. }
  assert (H1 : at_home t w1).
  { destruct H as [Hr Hs]. split; [exact Hr|]. intros l' Hl'. apply E. now apply Hs. }
  eapply safe_base; [exact E|].
  apply safe_bind_res.
  - apply safe_await. now apply Hw.
  - intros a w2 I2 H2 _. now apply good_ret.
Qed.

Lemma safe_scoped t {T} m (work : M T) w :
  isolated w -> at_home t w -> owned_by t w m -> good t work ->
  safe t w
    ((let* response :=
        (let* store := new_Map in
         await (als_run store (UnitOfWorkService.in_scope m work))) in
      ret response) w).
Proof.
  intros I H Hm Hw. unfold bind at 1 2. unfold new_Map. simpl.
  set (w1 := set_heap _ w).
  assert (E : ext w w1).
  { split; [auto|]. intros l' t'. unfold creator, w1. simpl.
    destruct (heap w !! l') as [o|] eqn:Eo; [|discriminate].
    now rewrite (lookup_app_l_Some _ _ _ _ Eo). }
  assert (I1 : isolated w1).
  { destruct I as [S Hh]. constructor.
    - intros t' m' Hin. eapply owned_by_ext; [exact E|]. now apply S.
    - intros l' o' m' Ho Hk. unfold w1 in Ho. simpl in Ho.
      apply lookup_snoc_inv in Ho as [Ho|[_ ->]].
      + eapply owned_by_ext; [exact E|]. eapply Hh; eauto.
      + simpl in Hk. now rewrite lookup_empty in Hk. }
  assert (H1 : at_home t w1).
  { destruct H as [Hr Hs]. split; [exact Hr|]. intros l' Hl'. apply E. now apply Hs. }
  assert (Hc : creator w1 (length (heap w)) = Some t).
  { unfold creator, w1. simpl. rewrite lookup_app_last. simpl. f_equal. apply H. }
  eapply safe_base; [exact E|].
  apply safe_bind_res.
  - apply safe_await. apply safe_als_run; auto.
    intros w2 I2 H2 Hs2 E2. apply (@safe_in_scope t T (length (heap w))); auto.
    eapply owned_by_ext; [exact E2|]. eapply owned_by_ext; [exact E | exact Hm].
  - intros a w2 I2 H2 _. now apply good_ret.
Qed.

Lemma good_connection_transaction t {T} (cb : EntityManager -> M T) :
  (forall x w, isolated w -> at_home t w -> owner w x = Some t ->
               safe t w (cb (TxManager x) w)) ->
  good t (connection_transaction cb).
Proof.
  intros Hcb w I H. unfold connection_transaction. unfold bind at 1.
  unfold createQueryRunner. simpl.
  set (w1 := set_db _ w). set (x := length (txs (db w))).
  assert (E : ext w w1) by (eapply ext_snoc; reflexivity).
  assert (I1 : isolated w1)
    by (eapply isolated_same; [exact I | exact E | reflexivity | reflexivity]).
  assert (H1 : at_home t w1).
  { destruct H as [Hr Hs]. split; [exact Hr|]. intros l' Hl'. apply E. now apply Hs. }
  assert (Ho : owner w1 x = Some t).
  { unfold owner, w1, x. simpl. rewrite lookup_app_last. simpl. f_equal. apply H. }
  eapply safe_base; [exact E|].
  unfold try_catch. apply safe_catch_res.
  - unfold bind at 1. apply safe_bind_res.
    + apply good_await; auto. apply good_harmless, harmless_startTransaction.
    + intros _ w2 I2 H2 E2. unfold bind at 1. apply safe_bind_res.
      * apply safe_await. apply Hcb; auto. now apply E2.
      * intros r w3 I3 H3 _. apply good_bind; auto using good_ret.
        apply good_await, good_harmless, harmless_commitTransaction.
  - intros e w2 I2 H2 _. apply good_bind; auto using good_throw.
    apply good_try_catch; auto using good_ret.
    apply good_await, good_harmless, harmless_rollbackTransaction.
Qed.

Lemma good_doTransactional t {T} (fn : EntityManager -> M T) :
  (forall m, good t (fn m)) -> good t (UnitOfWorkService.doTransactional fn).
Proof.
  intros Hfn. unfold UnitOfWorkService.doTransactional.
  apply good_await, good_connection_transaction.
  intros x w I H Ho. now apply safe_scoped.
Qed.

Lemma good_denote t {A} (p : prog A) : good t (denote p).
Proof.
  induction p as [A a | A e | A k IH | A E ent m e k IH | A m id k IH | A m k IH | A k IH
                 | A T fn IHfn k IH | A T body IHb handler IHh k IH]; simpl.
  - apply good_ret.
  - apply good_throw.
  - now apply good_getManager.
  - apply good_bind; [|exact IH]. apply good_await, good_harmless, harmless_manager_save.
  - apply good_bind; [|exact IH].
    apply good_await, good_harmless, harmless_manager_findOneOrFail.
  - apply good_bind; [|exact IH]. apply good_await, good_harmless, harmless_manager_find.
  - apply good_bind; [|exact IH]. apply good_harmless, harmless_Math_random.
  - apply good_bind; [|exact IH]. now apply good_await, good_doTransactional.
  - apply good_bind; [|exact IH]. now apply good_try_catch.
Qed.

(** ** Any schedule keeps the executions apart *)

Lemma resumable_ext t {A} w w' (k : world -> res A) :
  ext w w' -> resumable t w k -> resumable t w' k.
Proof. intros E K w'' I'' E''. apply K; eauto using ext_trans. Qed.

Lemma task_ok_ext {A} w w' t (x : task A) : ext w w' -> task_ok w t x -> task_ok w' t x.
Proof. intros E. destruct x; simpl; eauto using resumable_ext. Qed.

Lemma step_ok {A} t (s : system A) : system_ok s -> system_ok (step t s).
Proof.
  intros [I Hts]. unfold step.
  destruct (tasks s !! t) as [[k|o]|] eqn:Et; [|now split|now split].
  pose proof (Hts t _ Et (shared s) I (ext_refl _)) as S.
  change (enter t (shared s)) with (set_running t (shared s)) in S.
  destruct (k (set_running t (shared s))) as [o w' | w' k'];
    inversion S as [? ? I' E' H' | ? ? I' E' H' K]; subst.
  - split; [exact I'|]. simpl. intros t' x Hx.
    apply list_lookup_insert_Some in Hx as [(-> & <- & _)|(Hne & Hx)]; [exact Logic.I|].
    eapply task_ok_ext; [|now apply Hts]. eauto using ext_trans, ext_enter.
  - split; [exact I'|]. simpl. intros t' x Hx.
    apply list_lookup_insert_Some in Hx as [(-> & <- & _)|(Hne & Hx)]; [exact K|].
    eapply task_ok_ext; [|now apply Hts]. eauto using ext_trans, ext_enter.
Qed.

Lemma schedule_ok {A} order (s : system A) : system_ok s -> system_ok (schedule order s).
Proof.
  revert s. induction order as [|t order IH]; intros s Hs; [exact Hs|].
  apply IH, step_ok, Hs.
Qed.

Lemma requests_ok {T} (works : list (EntityManager -> prog T)) w :
  isolated w -> system_ok (requests works w).
Proof.
  intros I. split; [exact I|]. simpl. intros t x Hx.
  rewrite list_lookup_fmap in Hx.
  destruct (works !! t) as [fn|]; [|discriminate]. injection Hx as <-.
  intros w' I' E'. simpl.
  apply (@safe_base t T (enter t w') (set_store None (enter t w'))); [now apply ext_same|].
  apply good_doTransactional; [intros; apply good_denote | |].
  - eapply isolated_same; [exact I' | now apply ext_same | reflexivity | reflexivity].
  - split; [reflexivity|]. discriminate.
Qed.

Lemma isolated_boot random : isolated (boot random).
Proof.
  constructor; simpl.
  - intros t m H. now apply elem_of_nil in H.
  - intros l o m H. now rewrite lookup_nil in H.
Qed.

(** C2.  Requests that each run a unit of work through [doTransactional],
    interleaved by the event loop in any order: every manager that
    [getManager] has handed out inside execution [a] is a default manager or
    the manager of a transaction that [a] itself opened.  So for two
    executions [a] and [b], [getManager] inside [a] has never returned the
    manager of a transaction opened by [b]. *)
Theorem getManager_never_crosses_executions
    {T} (works : list (EntityManager -> prog T)) (order : list nat) (w : world) :
  isolated w ->
  (forall a m,
     (a, m) ∈ seen (shared (schedule order (requests works w))) ->
     owned_by a (shared (schedule order (requests works w))) m) /\
  (forall a b x,
     a <> b ->
     (a, TxManager x) ∈ seen (shared (schedule order (requests works w))) ->
     owner (shared (schedule order (requests works w))) x <> Some b).
Proof.
  intros I.
  destruct (schedule_ok order (requests_ok works I)) as [[S _] _].
  split; [exact S|].
  intros a b x Hne Hin Ho. apply S in Hin. simpl in Hin. congruence.
Qed.

Lemma getManager_never_crosses_executions_witness :
  isolated (boot no_random) /\
  seen (shared (schedule interleaving (requests two_requests (boot no_random))))
  = [(1, TxManager 1); (0, TxManager 0); (0, TxManager 0)] /\
  owner (shared (schedule interleaving (requests two_requests (boot no_random)))) 0 = Some 0 /\
  owner (shared (schedule interleaving (requests two_requests (boot no_random)))) 1 = Some 1 /\
  forall a b x,
    a <> b ->
    (a, TxManager x) ∈ seen (shared (schedule interleaving (requests two_requests (boot no_random)))) ->
    owner (shared (schedule interleaving (requests two_requests (boot no_random)))) x <> Some b.
Proof.
  split; [apply isolated_boot|]. split; [vm_compute; reflexivity|].
  split; [vm_compute; reflexivity|]. split; [vm_compute; reflexivity|].
  apply (@getManager_never_crosses_executions Order two_requests interleaving
           (boot no_random) (isolated_boot no_random)).
Defined.

(** * Further properties of the order module and of the service *)

(** ** The injected failure of [saveOrderItem] *)

(** X1.  [saveOrderItem] fails with HttpException("xablau", 500) exactly
    when its draw gives [rand <= 2], whatever the item, the store and the
    database; and then nothing has happened but the draw: no manager was
    asked for, nothing was written, no query was made. *)
Theorem saveOrderItem_fails_on_the_draw_alone (item : Item) (w : world) :
  (fst (run (OrderRepository.saveOrderItem item) w) = Err (HttpException "xablau" 500)
   <-> (rand_at w 0 <= 2)%Z) /\
  ((rand_at w 0 <= 2)%Z ->
   snd (run (OrderRepository.saveOrderItem item) w) = set_draws (S (draws w)) w).
Proof.
  unfold rand_at. rewrite Nat.add_0_r.
  unfold OrderRepository.saveOrderItem. rewrite run_Random. cbv zeta.
  destruct (Z.leb_spec (Math_floor (rng w (draws w) * inject_Z 5)) 2) as [Hle|Hgt].
  - rewrite run_Throw. simpl. split; [tauto | reflexivity].
  - split; [|lia]. split; [|lia]. intros H. exfalso.
    rewrite run_GetManager in H.
    destruct (ambient (set_draws (S (draws w)) w)) as [m|];
      rewrite run_Save in H; unfold manager_save in H.
    + destruct m as [x|n]; simpl in H; [|discriminate].
      destruct (tx_state x _) as [[]|]; simpl in H; discriminate.
    + simpl in H. discriminate.
Qed.

Lemma saveOrderItem_fails_on_the_draw_alone_witness :
  (rand_at (boot no_random) 0 <= 2)%Z /\
  snd (run (OrderRepository.saveOrderItem (mkItem None "T-Shirt" 1 None)) (boot no_random))
  = set_draws 1 (boot no_random).
Proof.
  split; [vm_compute; discriminate|].
  apply (proj2 (saveOrderItem_fails_on_the_draw_alone (mkItem None "T-Shirt" 1 None)
                  (boot no_random))).
  vm_compute. discriminate.
Defined.

(** ** [getManager] called twice *)

(** X2.  Two calls of [getManager] in a row: inside a scope both return the
    manager the store holds and no manager is made; outside any scope each
    call makes a manager of its own, so the two results differ. *)
Theorem getManager_twice (w : world) :
  match ambient w with
  | Some m =>
      fst (run (GetManager (fun m1 => GetManager (fun m2 => Ret (m1, m2)))) w) = Ok (m, m) /\
      managers (snd (run (GetManager (fun m1 => GetManager (fun m2 => Ret (m1, m2)))) w))
      = managers w
  | None =>
      exists m1 m2,
        fst (run (GetManager (fun m1 => GetManager (fun m2 => Ret (m1, m2)))) w) = Ok (m1, m2) /\
        m1 <> m2 /\ is_default m1 /\ is_default m2 /\
        managers (snd (run (GetManager (fun m1 => GetManager (fun m2 => Ret (m1, m2)))) w))
        = S (S (managers w))
  end.
Proof.
  destruct (ambient w) as [m|] eqn:Ha.
  - rewrite run_GetManager, Ha, run_GetManager.
    change (ambient (noted m w)) with (ambient w). rewrite Ha, run_Ret. split; reflexivity.
  - rewrite run_GetManager, Ha, run_GetManager.
    change (ambient (noted _ (default_made w))) with (ambient w). rewrite Ha, run_Ret.
    exists (DefaultManager (managers w)), (DefaultManager (S (managers w))).
    repeat split; simpl; auto. intros [= H]. lia.
Qed.

(** ** Reading back what was saved *)

Lemma run_getById_visible i w l :
  visible w = Some l ->
  fst (run (OrderRepository.getById i) w) =
  match find_order i l with
  | Some o => Ok o
  | None => Err (EntityNotFound KOrder i)
  end.
Proof.
  unfold visible, OrderRepository.getById. intros Hv.
  rewrite run_GetManager. destruct (ambient w) as [m|];
    rewrite run_FindOneOrFail; unfold manager_findOneOrFail.
  - change (manager_rows m (noted m w)) with (manager_rows m w). rewrite Hv.
    destruct (find_order i l); reflexivity.
  - simpl. injection Hv as <-. destruct (find_order i (rows (db w))); reflexivity.
Qed.

Lemma head_filter_Some {A} (P : A -> Prop) `{forall a, Decision (P a)} (l : list A) a :
  head (filter P l) = Some a -> a ∈ l /\ P a.
Proof.
  induction l as [|b l IH]; [discriminate|].
  rewrite filter_cons. destruct (decide (P b)) as [Hp|Hn].
  - intros [= <-]. split; [left | exact Hp].
  - intros Hh. destruct (IH Hh). split; [now right | assumption].
Qed.

Lemma head_filter_None {A} (P : A -> Prop) `{forall a, Decision (P a)} (l : list A) :
  head (filter P l) = None <-> forall a, a ∈ l -> ~ P a.
Proof.
  induction l as [|b l IH].
  - split; [|reflexivity]. intros _ a Ha. now apply elem_of_nil in Ha.
  - rewrite filter_cons. destruct (decide (P b)) as [Hp|Hn]; simpl.
    + split; [discriminate|]. intros Hall. exfalso. apply (Hall b); [left | exact Hp].
    + rewrite IH. split.
      * intros Hall a Ha. apply elem_of_cons in Ha as [->|Ha]; auto.
      * intros Hall a Ha. apply Hall. now right.
Qed.

(** X3.  [getById] agrees with [getAll], read through the same manager:
    [getAll] lists the orders among the rows that manager reads and leaves
    these rows as they are; an order that [getById i] returns is one of the
    listed orders and has the key [i]; and [getById i] fails with
    EntityNotFound exactly when no listed order has the key [i]. *)
Theorem getById_agrees_with_getAll (i : nat) (w : world) (l : list Row) :
  visible w = Some l ->
  exists all,
    fst (run OrderRepository.getAll w) = Ok all /\
    fst (run OrderController.all w) = Ok all /\
    visible (snd (run OrderRepository.getAll w)) = Some l /\
    (forall o, fst (run (OrderRepository.getById i) w) = Ok o ->
               o ∈ all /\ order_id o = Some i) /\
    (fst (run (OrderRepository.getById i) w) = Err (EntityNotFound KOrder i)
     <-> forall o, o ∈ all -> order_id o <> Some i).
Proof.
  intros Hv. exists (load_items l <$> orders_in l).
  assert (Hall : fst (run OrderRepository.getAll w) = Ok (load_items l <$> orders_in l) /\
                 visible (snd (run OrderRepository.getAll w)) = Some l).
  { unfold visible in *. unfold OrderRepository.getAll. rewrite run_GetManager.
    destruct (ambient w) as [m|] eqn:Ha; rewrite run_Find; unfold manager_find.
    - change (manager_rows m (noted m w)) with (manager_rows m w). rewrite Hv.
      cbn [run_alone]. rewrite run_Ret. cbn [fst snd]. split; [reflexivity|].
      change (ambient (set_db _ (noted m w))) with (ambient w). rewrite Ha.
      rewrite <- Hv. destruct m as [x|n]; [|reflexivity].
      unfold manager_rows, tx_state, tx_written. reflexivity.
    - cbn [manager_rows run_alone]. rewrite run_Ret. cbn [fst snd].
      injection Hv as <-. split; [reflexivity|].
      change (ambient (set_db _ (noted _ (default_made w)))) with (ambient w).
      now rewrite Ha. }
  destruct Hall as [Hall Hvis].
  split; [exact Hall|]. split; [exact Hall|]. split; [exact Hvis|].
  rewrite (@run_getById_visible i w l Hv). unfold find_order.
  destruct (head (filter (fun o => order_id o = Some i) (orders_in l))) as [o0|] eqn:Eh; simpl.
  - apply head_filter_Some in Eh as [Hin Hid]. split.
    + intros o [= <-]. split; [|exact Hid].
      apply list_elem_of_fmap. eauto.
    + split; [discriminate|]. intros Hno. exfalso.
      apply (Hno (load_items l o0)); [|exact Hid].
      apply list_elem_of_fmap. eauto.
  - split; [discriminate|]. split; [|reflexivity]. intros _ o Hin Hid.
    apply list_elem_of_fmap in Hin as (o1 & -> & Hin1).
    rewrite head_filter_None in Eh. exact (Eh o1 Hin1 Hid).
Qed.

Lemma getById_agrees_with_getAll_witness :
  visible (scope_world (boot no_random)) = Some [] /\
  exists all,
    fst (run OrderRepository.getAll (scope_world (boot no_random))) = Ok all /\
    (fst (run (OrderRepository.getById 3) (scope_world (boot no_random)))
     = Err (EntityNotFound KOrder 3)
     <-> forall o, o ∈ all -> order_id o <> Some 3).
Proof.
  split; [vm_compute; reflexivity|].
  destruct (@getById_agrees_with_getAll 3 (scope_world (boot no_random)) [])
    as (all & Hall & _ & _ & _ & Hnf); [vm_compute; reflexivity|].
  exists all. split; [exact Hall | exact Hnf].
Defined.








(** ** [createOrder] for orders of any size *)

Lemma run_saveOrderItem_injected (item : Item) w :
  (rand_at w 0 <= 2)%Z ->
  run (OrderRepository.saveOrderItem item) w =
  (Err (HttpException "xablau" 500), set_draws (S (draws w)) w).
Proof.
  unfold rand_at. rewrite Nat.add_0_r. intros Hr.
  unfold OrderRepository.saveOrderItem. rewrite run_Random. cbv zeta.
  destruct (Z.leb_spec (Math_floor (rng w (draws w) * inject_Z 5)) 2) as [_|Hgt]; [|lia].
  reflexivity.
Qed.

Lemma rand_at_next w w' k :
  rng w' = rng w -> draws w' = S (draws w) -> rand_at w' k = rand_at w (S k).
Proof. intros Hr Hd. unfold rand_at. rewrite Hr, Hd. do 3 f_equal. lia. Qed.

Lemma saveOrderItem_in_tx (item : Item) x w :
  (2 < rand_at w 0)%Z ->
  ambient w = Some (TxManager x) ->
  tx_state x w = Some Open ->
  exists w',
    run (OrderRepository.saveOrderItem item) w
    = (Ok (with_id (next_item_id (db w)) item), w') /\
    rows (db w') = rows (db w) /\
    tx_written x w' = tx_written x w ++ [RItem (with_id (next_item_id (db w)) item)] /\
    tx_state x w' = Some Open /\
    ambient w' = Some (TxManager x) /\
    next_item_id (db w') = S (next_item_id (db w)) /\
    next_order_id (db w') = next_order_id (db w) /\
    rng w' = rng w /\ draws w' = S (draws w).
Proof.
  intros Hr Ha Hx. unfold rand_at in Hr. rewrite Nat.add_0_r in Hr.
  rewrite (@run_saveOrderItem item x w Hr Ha Hx).
  eexists. split; [reflexivity|].
  split; [reflexivity|]. split.
  { unfold tx_written, tx_state in *. simpl. rewrite list_lookup_alter_eq.
    destruct (txs (db w) !! x); simpl; [reflexivity | discriminate]. }
  split.
  { unfold tx_state in *. simpl. rewrite list_lookup_alter_eq.
    destruct (txs (db w) !! x); simpl in *; [exact Hx | discriminate]. }
  split; [exact Ha|]. repeat split.
Qed.

Lemma run_saveItems_in_tx items : forall (order : Order) x w,
  ambient w = Some (TxManager x) ->
  tx_state x w = Some Open ->
  (forall k, k < length items -> (2 < rand_at w k)%Z) ->
  exists w',
    run (OrderService.saveItems order items) w = (Ok tt, w') /\
    rows (db w') = rows (db w) /\
    tx_written x w' =
      tx_written x w ++ (RItem <$> item_rows (order_id order) (next_item_id (db w)) items) /\
    tx_state x w' = Some Open.
Proof.
  induction items as [|itemDto rest IH]; intros order x w Ha Hx Hr.
  - exists w. simpl. rewrite run_Ret, app_nil_r. auto.
  - cbn [OrderService.saveItems]. cbv zeta. rewrite run_pbind.
    destruct (@saveOrderItem_in_tx
                (mkItem None (dto_name itemDto) (dto_quantity itemDto) (order_id order)) x w)
      as (w1 & -> & Hrows & Hw & Hx1 & Ha1 & Hj & _ & Hrng & Hd); auto.
    { apply Hr. simpl. lia. }
    destruct (IH order x w1 Ha1 Hx1) as (w' & Hrun & Hrows' & Hw' & Hx').
    { intros k Hk. rewrite (@rand_at_next w w1 k Hrng Hd). apply Hr. simpl. lia. }
    exists w'. split; [exact Hrun|]. split; [congruence|]. split; [|exact Hx'].
    rewrite Hw', Hw, Hj. simpl. now rewrite <- app_assoc.
Qed.

Lemma run_createOrder_in_tx (orderDto : CreateOrderRequestDto) x w :
  ambient w = Some (TxManager x) ->
  tx_state x w = Some Open ->
  (forall k, k < length (dto_items orderDto) -> (2 < rand_at w k)%Z) ->
  exists w',
    run (OrderService.createOrder orderDto) w
    = (Ok (new_order (next_order_id (db w)) orderDto), w') /\
    rows (db w') = rows (db w) /\
    tx_written x w' =
      tx_written x w ++
      ROrder (new_order (next_order_id (db w)) orderDto)
      :: (RItem <$> item_rows (Some (next_order_id (db w))) (next_item_id (db w))
                      (dto_items orderDto)) /\
    tx_state x w' = Some Open.
Proof.
  intros Ha Hx Hr. unfold OrderService.createOrder. cbv zeta.
  rewrite run_pbind, (@run_saveOrder _ x w Ha Hx), run_pbind.
  set (w0 := set_db _ (noted (TxManager x) w)).
  assert (Hx0 : tx_state x w0 = Some Open).
  { unfold tx_state, w0 in *. simpl. rewrite list_lookup_alter_eq.
    destruct (txs (db w) !! x); simpl in *; [exact Hx | discriminate]. }
  assert (Hw0 : tx_written x w0 =
                tx_written x w ++ [ROrder (new_order (next_order_id (db w)) orderDto)]).
  { unfold tx_written, tx_state, w0 in *. simpl. rewrite list_lookup_alter_eq.
    destruct (txs (db w) !! x); simpl in *; [reflexivity | discriminate]. }
  destruct (@run_saveItems_in_tx (dto_items orderDto)
              (with_id (next_order_id (db w))
                 (mkOrder None (dto_date orderDto) (dto_description orderDto) [])) x w0)
    as (w' & -> & Hrows & Hw & Hx'); auto.
  exists w'. rewrite run_Ret. split; [reflexivity|]. split; [exact Hrows|].
  split; [|exact Hx']. rewrite Hw, Hw0. simpl. now rewrite <- app_assoc.
Qed.

Lemma run_saveItems_fails items : forall (order : Order) x w k,
  ambient w = Some (TxManager x) ->
  tx_state x w = Some Open ->
  k < length items -> (rand_at w k <= 2)%Z ->
  fst (run (OrderService.saveItems order items) w) = Err (HttpException "xablau" 500).
Proof.
  induction items as [|itemDto rest IH]; intros order x w k Ha Hx Hk Hr; [simpl in Hk; lia|].
  cbn [OrderService.saveItems]. cbv zeta. rewrite run_pbind.
  destruct (Z.leb_spec (rand_at w 0) 2) as [Hle|Hgt].
  - now rewrite run_saveOrderItem_injected.
  - destruct (@saveOrderItem_in_tx
                (mkItem None (dto_name itemDto) (dto_quantity itemDto) (order_id order)) x w)
      as (w1 & -> & _ & _ & Hx1 & Ha1 & _ & _ & Hrng & Hd); auto.
    destruct k as [|k]; [lia|].
    apply (IH order x w1 k Ha1 Hx1); [simpl in Hk; lia|].
    now rewrite (@rand_at_next w w1 k Hrng Hd).
Qed.

Lemma confined_pbind h A B (p : prog A) (f : A -> prog B) :
  confined h p -> (forall a, confined h (f a)) -> confined h (pbind p f).
Proof.
  intros Hp. revert B f.
  induction Hp as [A a | A e | A k Hk IH | A E ent e k Hk IH | A m id k Hk IH
                  | A m k Hk IH | A k Hk IH | A T body handler k Hb IHb Hh IHh Hk IH];
    intros B f Hf; simpl; try (constructor; auto); auto.
Qed.

Lemma confined_createOrder h (orderDto : CreateOrderRequestDto) :
  confined h (OrderService.createOrder orderDto).
Proof.
  unfold OrderService.createOrder. cbv zeta.
  apply confined_pbind; [repeat constructor|]. intros order.
  apply confined_pbind; [|intros; constructor].
  induction (dto_items orderDto) as [|itemDto rest IH]; [constructor|].
  cbn [OrderService.saveItems]. cbv zeta.
  apply confined_pbind; [|intros; exact IH].
  unfold OrderRepository.saveOrderItem. constructor. intros q. cbv zeta.
  destruct (_ <=? _)%Z; repeat constructor.
Qed.

(** The two ways of the controller, for any handler: the interceptor around
    the route handler [p] ends as [doTransactional] around [p] does. *)
Lemma run_alone_intercept_route {T} (p : prog T) w :
  run_alone (TransactionStorageInterceptor.intercept tt (handler_of (route p)) w) =
  match run (DoTransactional (fun _ => p) Ret) w with
  | (Ok v, w') => (Ok (Some v), w')
  | (Err e, w') => (Err e, w')
  end.
Proof.
  unfold TransactionStorageInterceptor.intercept.
  rewrite run_alone_doTransactionalCallHandler by (apply framed_last_value).
  rewrite run_DoTransactional.
  unfold handler_of, route, toPromise. cbn [handle observable_of last_value].
  rewrite run_alone_bind, run_alone_await by apply framed_denote.
  fold (run p (scope_world w)).
  pose proof (proj2 (run_grows p (scope_world w))) as Hst.
  destruct (run p (scope_world w)) as [[v|e] w4]; cbn [snd] in Hst;
    rewrite <- Hst, set_store_same; cbn [run_alone ret]; unfold conclude;
    destruct (tx_state (opened w) w4) as [[]|]; try reflexivity.
Qed.

Lemma tx_written_scope_world w : tx_written (opened w) (scope_world w) = [].
Proof. unfold tx_written, opened. simpl. now rewrite lookup_app_last. Qed.

Lemma createFirstWay_success (orderDto : CreateOrderRequestDto) w :
  (forall k, k < length (dto_items orderDto) -> (2 < rand_at w k)%Z) ->
  exists w',
    run (OrderController.createFirstWay orderDto) w
    = (Ok (new_order (next_order_id (db w)) orderDto), w') /\
    als_store w' = als_store w /\ heap w' = heap (scope_world w) /\
    tx_state (opened w) w' = Some Committed /\
    rows (db w') =
      rows (db w) ++
      ROrder (new_order (next_order_id (db w)) orderDto)
      :: (RItem <$> item_rows (Some (next_order_id (db w))) (next_item_id (db w))
                      (dto_items orderDto)).
Proof.
  intros Hr.
  destruct (@run_createOrder_in_tx orderDto (opened w) (scope_world w)
              (ambient_scope_world w) (tx_state_scope_world w) Hr)
    as (w4 & Hrun & Hrows & Hw & Hx).
  pose proof (@confined_run (opened w) _ _ (scope_world w)
                (confined_createOrder (TxManager (opened w)) orderDto)
                (ambient_scope_world w)) as (_ & Hheap & _).
  rewrite Hrun in Hheap. cbn [snd] in Hheap.
  change (next_order_id (db (scope_world w))) with (next_order_id (db w)) in *.
  change (next_item_id (db (scope_world w))) with (next_item_id (db w)) in *.
  change (rows (db (scope_world w))) with (rows (db w)) in *.
  exists (set_store (als_store w) (commit_world (opened w) w4)).
  split; [|split; [reflexivity|split; [exact Hheap|split]]].
  - unfold OrderController.createFirstWay. rewrite run_DoTransactional, Hrun.
    unfold conclude. rewrite Hx. apply run_Ret.
  - exact (tx_state_commit_world _ _ Hx).
  - simpl. rewrite Hrows, Hw, tx_written_scope_world. reflexivity.
Qed.

(** X5.  [createFirstWay] for an order with any number of items, none of
    whose draws triggers the injected failure: the call returns the order
    with its new key (and without its items); the transaction is committed;
    the committed rows gain, in this order, the order row and one row for
    each item of the request, with consecutive keys, each referring to the
    order.  The interceptor path of [createSecondWay] does the same. *)
Theorem createFirstWay_persists_order_and_items
    (orderDto : CreateOrderRequestDto) (w : world) :
  (forall k, k < length (dto_items orderDto) -> (2 < rand_at w k)%Z) ->
  exists w',
    run (OrderController.createFirstWay orderDto) w
    = (Ok (new_order (next_order_id (db w)) orderDto), w') /\
    run_alone (OrderController.secondWay orderDto w)
    = (Ok (Some (new_order (next_order_id (db w)) orderDto)), w') /\
    tx_state (opened w) w' = Some Committed /\
    rows (db w') =
      rows (db w) ++
      ROrder (new_order (next_order_id (db w)) orderDto)
      :: (RItem <$> item_rows (Some (next_order_id (db w))) (next_item_id (db w))
                      (dto_items orderDto)).
Proof.
  intros Hr. destruct (createFirstWay_success orderDto w Hr) as (w' & Hrun & _ & _ & Hc & Hrows).
  exists w'. split; [exact Hrun|]. split; [|split; assumption].
  unfold OrderController.secondWay, OrderController.createSecondWay.
  rewrite run_alone_intercept_route.
  unfold OrderController.createFirstWay in Hrun. now rewrite Hrun.
Qed.

Lemma createFirstWay_persists_order_and_items_witness :
  (forall k, k < length (dto_items two_items) ->
             (2 < rand_at (boot high_draws) k)%Z) /\
  exists w',
    run (OrderController.createFirstWay
           two_items)
        (boot high_draws)
    = (Ok (mkOrder (Some 1) "d" "two items" []), w') /\
    rows (db w') =
      [ROrder (mkOrder (Some 1) "d" "two items" []);
       RItem (mkItem (Some 1) "a" 1 (Some 1));
       RItem (mkItem (Some 2) "b" 2 (Some 1))].
Proof.
  assert (H : forall k, k < length (dto_items two_items) ->
             (2 < rand_at (boot high_draws) k)%Z)
    by (intros k _; reflexivity).
  split; [exact H|].
  destruct (createFirstWay_persists_order_and_items
              two_items
              (boot high_draws) H) as (w' & Hrun & _ & _ & Hrows).
  exists w'. split; [exact Hrun | exact Hrows].
Defined.

Lemma orders_in_items (l : list Item) : orders_in (RItem <$> l) = [].
Proof. induction l as [|i l IH]; [reflexivity | exact IH]. Qed.

Lemma items_of_item_rows n j items :
  items_of n (RItem <$> item_rows (Some n) j items) = item_rows (Some n) j items.
Proof.
  revert j. induction items as [|d rest IH]; intros j; [reflexivity|].
  unfold items_of in *. simpl.
  destruct (decide (Some n = Some n)) as [_|N]; [|contradiction].
  f_equal. apply IH.
Qed.

Lemma find_order_created n l (o : Order) j items :
  (forall o', ROrder o' ∈ l -> order_id o' <> Some n) ->
  (forall i', RItem i' ∈ l -> item_order i' <> Some n) ->
  order_id o = Some n ->
  find_order n (l ++ ROrder o :: (RItem <$> item_rows (Some n) j items)) =
  Some (mkOrder (Some n) (order_date o) (order_description o) (item_rows (Some n) j items)).
Proof.
  intros Ho Hi Eo. unfold find_order, orders_in.
  rewrite omap_app, filter_app. fold (orders_in l).
  rewrite (filter_none (fun o => order_id o = Some n) (l:=orders_in l))
    by (intros o' Hin; apply Ho; now apply elem_of_orders_in).
  simpl. fold (orders_in (RItem <$> item_rows (Some n) j items)).
  rewrite orders_in_items, filter_cons.
  destruct (decide (order_id o = Some n)) as [_|N]; [|contradiction].
  simpl. unfold load_items. rewrite Eo. simpl. f_equal. f_equal.
  unfold items_of. rewrite omap_app. fold (items_of n l).
  rewrite (items_of_none Hi). simpl.
  fold (items_of n (RItem <$> item_rows (Some n) j items)).
  apply items_of_item_rows.
Qed.

(** X6.  After [createFirstWay] has succeeded, for an order of any size,
    [getById] of the new key, asked outside any scope, returns the order
    with exactly the items of the request, in the order of the request.
    The key must not have been in use: no committed order has it and no
    committed item refers to it. *)
Theorem createFirstWay_then_getById (orderDto : CreateOrderRequestDto) (w : world) :
  als_store w = None ->
  (forall k, k < length (dto_items orderDto) -> (2 < rand_at w k)%Z) ->
  (forall o, ROrder o ∈ rows (db w) -> order_id o <> Some (next_order_id (db w))) ->
  (forall i, RItem i ∈ rows (db w) -> item_order i <> Some (next_order_id (db w))) ->
  fst (run (pbind (OrderController.createFirstWay orderDto) (fun created =>
            OrderController.getById (next_order_id (db w)))) w)
  = Ok (mkOrder (Some (next_order_id (db w))) (dto_date orderDto) (dto_description orderDto)
          (item_rows (Some (next_order_id (db w))) (next_item_id (db w))
             (dto_items orderDto))).
Proof.
  intros Hs Hr Ho Hi.
  destruct (createFirstWay_success orderDto w Hr) as (w' & Hrun & Hs' & _ & _ & Hrows).
  rewrite run_pbind, Hrun.
  assert (Hv : visible w' = Some (rows (db w'))).
  { unfold visible, ambient. now rewrite Hs', Hs. }
  unfold OrderController.getById, OrderService.getById.
  rewrite (@run_getById_visible _ w' _ Hv), Hrows.
  now rewrite (@find_order_created (next_order_id (db w)) (rows (db w))) by auto.
Qed.

Lemma createFirstWay_then_getById_witness :
  als_store (boot high_draws) = None /\
  fst (run (pbind (OrderController.createFirstWay
                     two_items)
                  (fun created => OrderController.getById 1))
         (boot high_draws))
  = Ok (mkOrder (Some 1) "d" "two items"
          [mkItem (Some 1) "a" 1 (Some 1); mkItem (Some 2) "b" 2 (Some 1)]).
Proof.
  split; [reflexivity|].
  apply (@createFirstWay_then_getById
           two_items
           (boot high_draws)).
  - reflexivity.
  - intros k _. reflexivity.
  - intros o H. now apply elem_of_nil in H.
  - intros i H. now apply elem_of_nil in H.
Defined.

Lemma createOrder_fails_in_tx (orderDto : CreateOrderRequestDto) x w k :
  ambient w = Some (TxManager x) ->
  tx_state x w = Some Open ->
  k < length (dto_items orderDto) -> (rand_at w k <= 2)%Z ->
  fst (run (OrderService.createOrder orderDto) w) = Err (HttpException "xablau" 500).
Proof.
  intros Ha Hx Hk Hr. unfold OrderService.createOrder. cbv zeta.
  rewrite run_pbind, (@run_saveOrder _ x w Ha Hx), run_pbind.
  set (w0 := set_db _ (noted (TxManager x) w)).
  assert (Hx0 : tx_state x w0 = Some Open).
  { unfold tx_state, w0 in *. simpl. rewrite list_lookup_alter_eq.
    destruct (txs (db w) !! x); simpl in *; [exact Hx | discriminate]. }
  pose proof (@run_saveItems_fails (dto_items orderDto)
                (with_id (next_order_id (db w))
                   (mkOrder None (dto_date orderDto) (dto_description orderDto) []))
                x w0 k Ha Hx0 Hk Hr) as H.
  destruct (run (OrderService.saveItems _ (dto_items orderDto)) w0) as [[[]|e] w1];
    simpl in H |- *; [discriminate | now injection H as ->].
Qed.

(** X7.  [createFirstWay] for an order one of whose items draws
    [rand <= 2]: the call fails with HttpException("xablau", 500), its
    transaction is rolled back and the committed rows are those from before
    the call: neither the order nor any item is persisted.  The interceptor
    path of [createSecondWay] ends the same. *)
Theorem createFirstWay_failure_persists_nothing
    (orderDto : CreateOrderRequestDto) (w : world) (k : nat) :
  k < length (dto_items orderDto) ->
  (rand_at w k <= 2)%Z ->
  exists w',
    run (OrderController.createFirstWay orderDto) w
    = (Err (HttpException "xablau" 500), w') /\
    run_alone (OrderController.secondWay orderDto w)
    = (Err (HttpException "xablau" 500), w') /\
    tx_state (opened w) w' = Some RolledBack /\
    rows (db w') = rows (db w).
Proof.
  intros Hk Hr.
  pose proof (still_open (fun _ => OrderService.createOrder orderDto) w) as Hopen.
  pose proof (@confined_run (opened w) _ _ (scope_world w)
                (confined_createOrder (TxManager (opened w)) orderDto)
                (ambient_scope_world w)) as (Hrows & _ & _).
  pose proof (@createOrder_fails_in_tx orderDto (opened w) (scope_world w) k
                (ambient_scope_world w) (tx_state_scope_world w) Hk Hr) as Hfail.
  cbv beta in Hopen.
  destruct (run (OrderService.createOrder orderDto) (scope_world w)) as [[o|e] w4] eqn:Hrun;
    simpl in Hfail; [discriminate|]. injection Hfail as ->.
  cbn [snd] in Hopen, Hrows.
  exists (set_store (als_store w) (rollback_world (opened w) w4)).
  assert (H1 : run (OrderController.createFirstWay orderDto) w
               = (Err (HttpException "xablau" 500),
                  set_store (als_store w) (rollback_world (opened w) w4))).
  { unfold OrderController.createFirstWay. rewrite run_DoTransactional, Hrun.
    unfold conclude. now rewrite Hopen. }
  split; [exact H1|]. split; [|split].
  - unfold OrderController.secondWay, OrderController.createSecondWay.
    rewrite run_alone_intercept_route.
    unfold OrderController.createFirstWay in H1. now rewrite H1.
  - exact (tx_state_rollback_world _ _ Hopen).
  - exact Hrows.
Qed.

Lemma createFirstWay_failure_persists_nothing_witness :
  1 < length (dto_items two_items) /\
  (rand_at (boot second_draw_low) 1%nat <= 2)%Z /\
  exists w',
    run (OrderController.createFirstWay
           two_items)
        (boot second_draw_low)
    = (Err (HttpException "xablau" 500), w') /\
    rows (db w') = [].
Proof.
  split; [simpl; lia|]. split; [vm_compute; discriminate|].
  destruct (@createFirstWay_failure_persists_nothing
              two_items
              (boot second_draw_low) 1%nat)
    as (w' & Hrun & _ & _ & Hrows).
  - simpl. lia.
  - vm_compute. discriminate.
  - exists w'. split; [exact Hrun | exact Hrows].
Defined.

(** ** [createOrder] outside any unit of work *)

Lemma saveOrder_outside (order : Order) w :
  ambient w = None ->
  exists w',
    run (OrderRepository.saveOrder order) w = (Ok (with_id (next_order_id (db w)) order), w') /\
    rows (db w') = rows (db w) ++ [ROrder (with_id (next_order_id (db w)) order)] /\
    ambient w' = None /\ rng w' = rng w /\ draws w' = draws w.
Proof.
  intros Ha. unfold OrderRepository.saveOrder.
  rewrite run_GetManager, Ha, run_Save. unfold manager_save. cbn [run_alone].
  rewrite run_Ret. eexists. split; [reflexivity|]. repeat split. exact Ha.
Qed.

Lemma saveOrderItem_outside (item : Item) w :
  ambient w = None ->
  (2 < rand_at w 0)%Z ->
  exists w',
    run (OrderRepository.saveOrderItem item) w = (Ok (with_id (next_item_id (db w)) item), w') /\
    rows (db w') = rows (db w) ++ [RItem (with_id (next_item_id (db w)) item)] /\
    ambient w' = None /\ rng w' = rng w /\ draws w' = S (draws w).
Proof.
  intros Ha Hr. unfold rand_at in Hr. rewrite Nat.add_0_r in Hr.
  unfold OrderRepository.saveOrderItem. rewrite run_Random. cbv zeta.
  destruct (Z.leb_spec (Math_floor (rng w (draws w) * inject_Z 5)) 2) as [Hle|_]; [lia|].
  rewrite run_GetManager.
  change (ambient (set_draws (S (draws w)) w)) with (ambient w).
  rewrite Ha, run_Save. unfold manager_save. cbn [run_alone].
  rewrite run_Ret. eexists. split; [reflexivity|]. repeat split. exact Ha.
Qed.

Lemma run_saveItems_outside_fails items : forall (order : Order) w k,
  ambient w = None ->
  k < length items -> (rand_at w k <= 2)%Z ->
  exists w' l,
    run (OrderService.saveItems order items) w = (Err (HttpException "xablau" 500), w') /\
    rows (db w') = rows (db w) ++ l.
Proof.
  induction items as [|itemDto rest IH]; intros order w k Ha Hk Hr; [simpl in Hk; lia|].
  cbn [OrderService.saveItems]. cbv zeta. rewrite run_pbind.
  destruct (Z.leb_spec (rand_at w 0) 2) as [Hle|Hgt].
  - rewrite run_saveOrderItem_injected by exact Hle.
    eexists. exists []. split; [reflexivity|]. simpl. now rewrite app_nil_r.
  - destruct (@saveOrderItem_outside
                (mkItem None (dto_name itemDto) (dto_quantity itemDto) (order_id order)) w Ha Hgt)
      as (w1 & -> & Hrows & Ha1 & Hrng & Hd).
    destruct k as [|k]; [lia|].
    destruct (IH order w1 k Ha1) as (w' & l & Hrun & Hrows'); [simpl in Hk; lia| |].
    { now rewrite (@rand_at_next w w1 k Hrng Hd). }
    exists w'. eexists. split; [exact Hrun|]. rewrite Hrows', Hrows, <- app_assoc. reflexivity.
Qed.

(** X8.  [createOrder] called outside any unit of work, as the body of
    [createSecondWay] would run without its interceptor, is not atomic:
    when the draw of one of its items gives [rand <= 2] the call fails with
    HttpException("xablau", 500), and yet the order row, saved through a
    default manager, is committed, followed by the items saved before the
    failure. *)
Theorem createOrder_outside_unit_of_work_is_not_atomic
    (orderDto : CreateOrderRequestDto) (w : world) (k : nat) :
  ambient w = None ->
  k < length (dto_items orderDto) ->
  (rand_at w k <= 2)%Z ->
  exists w' l,
    run (OrderController.createSecondWay orderDto) w
    = (Err (HttpException "xablau" 500), w') /\
    rows (db w') = rows (db w) ++ ROrder (new_order (next_order_id (db w)) orderDto) :: l.
Proof.
  intros Ha Hk Hr.
  unfold OrderController.createSecondWay, OrderService.createOrder. cbv zeta.
  rewrite run_pbind.
  destruct (@saveOrder_outside
              (mkOrder None (dto_date orderDto) (dto_description orderDto) []) w Ha)
    as (w1 & -> & Hrows & Ha1 & Hrng & Hd).
  rewrite run_pbind.
  destruct (@run_saveItems_outside_fails (dto_items orderDto)
              (with_id (next_order_id (db w))
                 (mkOrder None (dto_date orderDto) (dto_description orderDto) [])) w1 k Ha1 Hk)
    as (w' & l & -> & Hrows').
  { unfold rand_at in *. now rewrite Hrng, Hd. }
  exists w', l. split; [reflexivity|]. rewrite Hrows', Hrows, <- app_assoc. reflexivity.
Qed.

Lemma createOrder_outside_unit_of_work_is_not_atomic_witness :
  ambient (boot second_draw_low) = None /\
  1 < length (dto_items two_items) /\
  (rand_at (boot second_draw_low) 1%nat <= 2)%Z /\
  exists w' l,
    run (OrderController.createSecondWay two_items) (boot second_draw_low)
    = (Err (HttpException "xablau" 500), w') /\
    rows (db w') = ROrder (mkOrder (Some 1) "d" "two items" []) :: l.
Proof.
  split; [reflexivity|]. split; [simpl; lia|]. split; [vm_compute; discriminate|].
  destruct (@createOrder_outside_unit_of_work_is_not_atomic two_items (boot second_draw_low) 1%nat)
    as (w' & l & Hrun & Hrows).
  - reflexivity.
  - simpl. lia.
  - vm_compute. discriminate.
  - exists w', l. split; [exact Hrun | exact Hrows].
Defined.

(** ** The two ways of the controller *)

(** X9.  For every route handler [p], and so for [createSecondWay] of any
    request: the interceptor around the handler ends in the same world as
    [doTransactional] around it, with the same failure, or with the same
    value (wrapped as the last value of the handler's observable).  The
    two endpoints of the controller differ in nothing else. *)
Theorem secondWay_ends_as_firstWay
    {T} (p : prog T) (orderDto : CreateOrderRequestDto) (w : world) :
  run_alone (TransactionStorageInterceptor.intercept tt (handler_of (route p)) w) =
  match run (DoTransactional (fun _ => p) Ret) w with
  | (Ok v, w') => (Ok (Some v), w')
  | (Err e, w') => (Err e, w')
  end /\
  run_alone (OrderController.secondWay orderDto w) =
  match run (OrderController.createFirstWay orderDto) w with
  | (Ok v, w') => (Ok (Some v), w')
  | (Err e, w') => (Err e, w')
  end.
Proof.
  split; [apply run_alone_intercept_route|].
  unfold OrderController.secondWay, OrderController.createSecondWay,
    OrderController.createFirstWay.
  apply run_alone_intercept_route.
Qed.

(** ** No transaction is left open *)

Lemma settled_same_length w w1 : opened w1 = opened w -> settled_from (opened w) w1.
Proof.
  intros Hl x Hx. left. unfold tx_state.
  rewrite (lookup_ge_None_2 (txs (db w1)) x); [reflexivity|].
  unfold opened in *. lia.
Qed.

Lemma settled_chain w w1 w2 :
  settled_from (opened w) w1 -> grows w1 w2 -> settled_from (opened w1) w2 ->
  settled_from (opened w) w2.
Proof.
  intros H1 G H2 x Hx. destruct (decide (opened w1 <= x)) as [Hge|Hlt]; [now apply H2|].
  specialize (H1 x Hx).
  destruct (tx_state x w1) as [s|] eqn:E.
  - rewrite (grows_tx_state _ G E). exact H1.
  - exfalso. unfold tx_state in E.
    destruct (txs (db w1) !! x) eqn:El; [discriminate|].
    apply lookup_ge_None_1 in El. unfold opened in *. lia.
Qed.

Lemma opened_save {A} (ent : Entity A) m (a : A) w :
  opened (snd (run_alone (manager_save m a w))) = opened w.
Proof.
  unfold manager_save, opened. destruct m as [x|n]; simpl.
  - destruct (tx_state x w) as [[]|]; simpl; try reflexivity.
    rewrite bump_id_txs. cbn [txs set_txs]. apply length_alter.
  - now rewrite bump_id_txs.
Qed.

Lemma opened_findOneOrFail m id w :
  opened (snd (run_alone (manager_findOneOrFail m id w))) = opened w.
Proof.
  unfold manager_findOneOrFail.
  destruct (manager_rows m w); [destruct (find_order id l)|]; reflexivity.
Qed.

Lemma opened_find m w : opened (snd (run_alone (manager_find m w))) = opened w.
Proof. unfold manager_find. destruct (manager_rows m w); reflexivity. Qed.

Lemma settled_conclude {T} w (r : outcome T * world) :
  tx_state (opened w) (snd r) = Some Open ->
  settled_from (S (opened w)) (snd r) ->
  settled_from (opened w) (snd (conclude (opened w) (als_store w) r)).
Proof.
  destruct r as [o w4]. cbn [snd]. intros Hopen Hs. unfold conclude. rewrite Hopen.
  assert (H : forall s, closed (Some s) ->
            forall x, opened w <= x ->
            closed (tx_status <$> alter (with_status s) (opened w) (txs (db w4)) !! x)).
  { intros s Hc x Hx. destruct (decide (x = opened w)) as [->|Hne].
    - rewrite list_lookup_alter_eq. unfold tx_state in Hopen.
      destruct (txs (db w4) !! opened w); simpl in *; [exact Hc | discriminate].
    - rewrite list_lookup_alter_ne by congruence. apply Hs. lia. }
  destruct o; intros x Hx; unfold tx_state; simpl; apply H; auto;
    unfold closed; auto.
Qed.

(** X10.  No client program leaves a transaction open: when it has run to
    its end, with a result or with a failure, every query runner made
    during the run holds a transaction that is committed or rolled back,
    and every transaction that existed before is in the state it was in.
    In particular [doTransactional] closes the transaction it opens, on
    every path. *)
Theorem no_transaction_left_open {A} (p : prog A) (w : world) :
  settled_from (opened w) (snd (run p w)) /\
  (forall x s, tx_state x w = Some s -> tx_state x (snd (run p w)) = Some s).
Proof.
  split; [|intros x s; apply grows_tx_state, run_grows].
  revert w.
  induction p as [A a | A e | A k IH | A E ent m e k IH | A m id k IH | A m k IH | A k IH
                 | A T fn IHfn k IH | A T body IHb handler IHh k IH]; intros w.
  - now apply settled_same_length.
  - now apply settled_same_length.
  - rewrite run_GetManager. destruct (ambient w) as [m|].
    + exact (IH m (noted m w)).
    + exact (IH _ (noted (DefaultManager (managers w)) (default_made w))).
  - rewrite run_Save. pose proof (opened_save ent m e w) as Hl.
    destruct (run_alone (manager_save m e w)) as [[e'|x] w1]; cbn [snd] in Hl.
    + rewrite <- Hl. apply IH.
    + now apply settled_same_length.
  - rewrite run_FindOneOrFail. pose proof (opened_findOneOrFail m id w) as Hl.
    destruct (run_alone (manager_findOneOrFail m id w)) as [[e'|x] w1]; cbn [snd] in Hl.
    + rewrite <- Hl. apply IH.
    + now apply settled_same_length.
  - rewrite run_Find. pose proof (opened_find m w) as Hl.
    destruct (run_alone (manager_find m w)) as [[e'|x] w1]; cbn [snd] in Hl.
    + rewrite <- Hl. apply IH.
    + now apply settled_same_length.
  - rewrite run_Random. exact (IH _ (set_draws (S (draws w)) w)).
  - rewrite run_DoTransactional.
    pose proof (IHfn (TxManager (opened w)) (scope_world w)) as Hs.
    rewrite opened_scope_world in Hs.
    pose proof (settled_conclude w _ (still_open fn w) Hs) as Hc.
    destruct (conclude _ _ _) as [[t|x] w']; cbn [snd] in Hc; [|exact Hc].
    eapply settled_chain; [exact Hc | apply run_grows | apply IH].
  - rewrite run_TryCatch. pose proof (IHb w) as Hb.
    destruct (run body w) as [[t|x] w1]; cbn [snd] in Hb.
    + eapply settled_chain; [exact Hb | apply run_grows | apply IH].
    + pose proof (IHh x w1) as Hh. pose proof (proj1 (run_grows (handler x) w1)) as G.
      destruct (run (handler x) w1) as [[t|x'] w2]; cbn [snd] in Hh, G.
      * eapply settled_chain; [|apply run_grows | apply IH].
        eapply settled_chain; eauto.
      * eapply settled_chain; eauto.
Qed.

(** ** Requests outside any unit of work, beside requests inside one *)

Lemma tame_world_of a w0 t {A} (r : res A) :
  tame a w0 t r ->
  default_only a w0 (world_of r) /\ running (world_of r) = t /\
  (t = a -> als_store (world_of r) = None).
Proof. destruct 1; simpl; auto. Qed.

Lemma tame_bind_res a w0 t {A B} (r : res A) (f : A -> M B) :
  tame a w0 t r -> (forall x, tamed a w0 t (f x)) -> tame a w0 t (bind_res r f).
Proof.
  intros S Hf. induction S as [o w D R N | w k D R N K IH]; simpl.
  - destruct o as [x|e]; [now apply Hf | now constructor].
  - constructor; auto.
Qed.

Lemma tame_catch_res a w0 t {A} (r : res A) (h : error -> M A) :
  tame a w0 t r -> (forall e, tamed a w0 t (h e)) -> tame a w0 t (catch_res r h).
Proof.
  intros S Hh. induction S as [o w D R N | w k D R N K IH]; simpl.
  - destruct o as [x|e]; [now constructor | now apply Hh].
  - constructor; auto.
Qed.

Lemma tame_resume_then a w0 t {A} (r : res A) s :
  tame a w0 t r -> (t = a -> s = None) -> tame a w0 t (resume_then s r).
Proof.
  intros S Hs. induction S as [o w D R N | w k D R N K IH]; simpl.
  - constructor; auto. intros w' D'. constructor; auto.
  - constructor; auto.
Qed.

Lemma tamed_ret a w0 t {A} (x : A) : tamed a w0 t (ret x).
Proof. intros w D R N. now constructor. Qed.

Lemma tamed_throw a w0 t {A} e : tamed a w0 t (@throw A e).
Proof. intros w D R N. now constructor. Qed.

Lemma tamed_bind a w0 t {A B} (m : M A) (f : A -> M B) :
  tamed a w0 t m -> (forall x, tamed a w0 t (f x)) -> tamed a w0 t (bind m f).
Proof. intros Hm Hf w D R N. apply tame_bind_res; auto. Qed.

Lemma tamed_try_catch a w0 t {A} (m : M A) (h : error -> M A) :
  tamed a w0 t m -> (forall e, tamed a w0 t (h e)) -> tamed a w0 t (try_catch m h).
Proof. intros Hm Hh w D R N. apply tame_catch_res; auto. Qed.

Lemma tamed_await a w0 t {A} (m : M A) : tamed a w0 t m -> tamed a w0 t (await m).
Proof.
  intros Hm w D R N. unfold await. cbv zeta.
  pose proof (Hm w D R N) as S. apply tame_resume_then; [exact S|].
  apply (tame_world_of S).
Qed.

Lemma tamed_silent a w0 t {A} (m : M A) : silent m -> tamed a w0 t m.
Proof.
  intros Hm w D R N. destruct (Hm w) as (o & w' & -> & Hseen & Hrun & Hst).
  constructor.
  - intros x. rewrite Hseen. apply D.
  - congruence.
  - intros E. rewrite Hst. auto.
Qed.

Lemma silent_harmless {A} (m : M A) : harmless m -> silent m.
Proof.
  intros Hm w. destruct (Hm w) as (o & w' & E & _ & Hseen & _ & Hrun & Hst).
  eauto 10.
Qed.

Lemma silent_als_getStore : silent als_getStore.
Proof. intros w. do 2 eexists. split; [reflexivity|]. auto. Qed.

Lemma silent_createQueryRunner : silent createQueryRunner.
Proof. intros w. do 2 eexists. split; [reflexivity|]. auto. Qed.

Lemma silent_new_Map : silent new_Map.
Proof. intros w. do 2 eexists. split; [reflexivity|]. auto. Qed.

Lemma silent_Map_set l k v : silent (Map_set l k v).
Proof. intros w. do 2 eexists. split; [reflexivity|]. auto. Qed.

Lemma tamed_observe a w0 t m : (t = a -> is_default m) -> tamed a w0 t (observe m).
Proof.
  intros Hm w D R N. unfold observe. constructor; auto.
  intros m' Hin. cbn [seen set_seen] in Hin.
  apply elem_of_app in Hin as [Hin|Hin]; [now apply D|].
  apply list_elem_of_singleton in Hin. injection Hin as Ha ->.
  right. apply Hm. congruence.
Qed.

Lemma tamed_getManager a w0 t {A} (f : EntityManager -> M A) :
  (forall m, tamed a w0 t (f m)) ->
  tamed a w0 t (bind UnitOfWorkService.getManager (fun m => bind (observe m) (fun _ => f m))).
Proof.
  intros Hf w D R N. unfold bind at 1. rewrite getManager_eq.
  destruct (ambient w) as [m|] eqn:Ea; cbn [bind_res].
  - assert (Hne : t <> a).
    { intros E. unfold ambient in Ea. rewrite (N E) in Ea. discriminate. }
    apply tamed_bind; auto. apply tamed_observe. intros E. contradiction.
  - apply tamed_bind; auto. apply tamed_observe. intros _. exact I.
Qed.

Lemma tamed_als_run a w0 t {A} store (callback : M A) :
  t <> a -> tamed a w0 t callback -> tamed a w0 t (als_run store callback).
Proof.
  intros Hne Hc w D R N. unfold als_run.
  assert (S : tame a w0 t (callback (set_store (Some store) w))).
  { apply Hc; auto. intros E. contradiction. }
  destruct (callback (set_store (Some store) w)) as [o w'|w' k];
    inversion S as [? ? D' R' N'|? ? D' R' N' K]; subst.
  - constructor; auto; intros E; contradiction.
  - constructor; auto; intros E; contradiction.
Qed.

Lemma tamed_in_scope a w0 t {T} manager (work : M T) :
  tamed a w0 t work -> tamed a w0 t (UnitOfWorkService.in_scope manager work).
Proof.
  intros Hw. unfold UnitOfWorkService.in_scope.
  apply tamed_bind.
  - apply tamed_bind; [apply tamed_silent, silent_als_getStore|].
    intros [s|]; [apply tamed_silent, silent_Map_set | apply tamed_throw].
  - intros _. apply tamed_bind; [now apply tamed_await | intros x; apply tamed_ret].
Qed.

Lemma tamed_connection_transaction a w0 t {T} (cb : EntityManager -> M T) :
  (forall m, tamed a w0 t (cb m)) -> tamed a w0 t (connection_transaction cb).
Proof.
  intros Hcb. unfold connection_transaction.
  apply tamed_bind; [apply tamed_silent, silent_createQueryRunner|]. intros x.
  apply tamed_try_catch.
  - apply tamed_bind.
    { apply tamed_await, tamed_silent, silent_harmless, harmless_startTransaction. }
    intros _. apply tamed_bind; [now apply tamed_await|]. intros r.
    apply tamed_bind; [|intros _; apply tamed_ret].
    apply tamed_await, tamed_silent, silent_harmless, harmless_commitTransaction.
  - intros e. apply tamed_bind; [|intros _; apply tamed_throw].
    apply tamed_try_catch; [|intros _; apply tamed_ret].
    apply tamed_await, tamed_silent, silent_harmless, harmless_rollbackTransaction.
Qed.

Lemma tamed_doTransactional a w0 t {T} (fn : EntityManager -> M T) :
  t <> a -> (forall m, tamed a w0 t (fn m)) ->
  tamed a w0 t (UnitOfWorkService.doTransactional fn).
Proof.
  intros Hne Hfn. unfold UnitOfWorkService.doTransactional.
  apply tamed_await, tamed_connection_transaction. intros m.
  apply tamed_bind; [|intros x; apply tamed_ret].
  apply tamed_bind; [apply tamed_silent, silent_new_Map|]. intros store.
  apply tamed_await, tamed_als_run; [exact Hne|]. now apply tamed_in_scope.
Qed.

Lemma tamed_denote a w0 t {A} (p : prog A) :
  (t = a -> plain p) -> tamed a w0 t (denote p).
Proof.
  induction p as [A x | A e | A k IH | A E ent m e k IH | A m id k IH | A m k IH | A k IH
                 | A T fn IHfn k IH | A T body IHb handler IHh k IH]; intros Hp;
    cbn [denote].
  - apply tamed_ret.
  - apply tamed_throw.
  - apply tamed_getManager. intros m. apply IH. intros E. exact (Hp E m).
  - apply tamed_bind.
    + apply tamed_await, tamed_silent, silent_harmless, harmless_manager_save.
    + intros e'. apply IH. intros E'. exact (Hp E' e').
  - apply tamed_bind.
    + apply tamed_await, tamed_silent, silent_harmless, harmless_manager_findOneOrFail.
    + intros o. apply IH. intros E. exact (Hp E o).
  - apply tamed_bind.
    + apply tamed_await, tamed_silent, silent_harmless, harmless_manager_find.
    + intros l. apply IH. intros E. exact (Hp E l).
  - apply tamed_bind.
    + apply tamed_silent, silent_harmless, harmless_Math_random.
    + intros q. apply IH. intros E. exact (Hp E q).
  - assert (Hne : t <> a) by (intros E; exact (Hp E)).
    apply tamed_bind.
    + apply tamed_await, tamed_doTransactional; [exact Hne|].
      intros m. apply IHfn. intros E. contradiction.
    + intros x. apply IH. intros E. contradiction.
  - apply tamed_bind.
    + apply tamed_try_catch.
      * apply IHb. intros E. apply (Hp E).
      * intros e. apply IHh. intros E. apply (Hp E).
    + intros x. apply IH. intros E. apply (Hp E).
Qed.

Lemma tame_step a w0 {A} t (s : system A) : tame_system a w0 s -> tame_system a w0 (step t s).
Proof.
  intros [D Hts]. unfold step.
  destruct (tasks s !! t) as [[k|o]|] eqn:Et; [|now split|now split].
  pose proof (Hts t k Et (shared s) D) as S.
  change (enter t (shared s)) with (set_running t (shared s)) in S.
  destruct (k (set_running t (shared s))) as [o w' | w' k'];
    inversion S as [? ? D' R' N' | ? ? D' R' N' K]; subst.
  - split; [exact D'|]. simpl. intros t' x Hx.
    apply list_lookup_insert_Some in Hx as [(_ & Hx & _)|(Hne & Hx)]; [discriminate|].
    now apply Hts.
  - split; [exact D'|]. simpl. intros t' x Hx.
    apply list_lookup_insert_Some in Hx as [(Heq & Hx & _)|(Hne & Hx)].
    + subst t'. injection Hx as <-. exact K.
    + now apply Hts.
Qed.

Lemma tame_schedule a w0 {A} order (s : system A) :
  tame_system a w0 s -> tame_system a w0 (schedule order s).
Proof.
  revert s. induction order as [|t order IH]; intros s Hs; [exact Hs|].
  apply IH, tame_step, Hs.
Qed.

Lemma tame_serve a {T} (programs : list (prog T)) w :
  (forall p, programs !! a = Some p -> plain p) -> tame_system a w (serve programs w).
Proof.
  intros Hp. split; [intros m Hm; now left|]. simpl. intros t k Hk w' D'.
  rewrite list_lookup_fmap in Hk.
  destruct (programs !! t) as [p|] eqn:Et; [|discriminate].
  injection Hk as <-. apply tamed_denote; auto.
  intros ->. now apply Hp.
Qed.

(** X11.  A request that never enters a unit of work gets only default
    managers from [getManager], whatever the other requests do meanwhile:
    among requests that the event loop interleaves in any order, some of
    them inside [doTransactional] with a transaction open, every manager
    handed to the request [a], whose program does not call
    [doTransactional], is one made by [connection.createEntityManager],
    never the manager of a transaction. *)
Theorem getManager_outside_unit_of_work_is_default
  {T} (programs : list (prog T)) (w : world) (order : list nat) (a : nat) (p : prog T) :
  programs !! a = Some p -> plain p ->
  forall m, (a, m) ∈ seen (shared (schedule order (serve programs w))) ->
            (a, m) ∈ seen w \/ is_default m.
Proof.
  intros Ha Hp.
  assert (S : tame_system a w (schedule order (serve programs w))).
  { apply tame_schedule, tame_serve. intros p' Hp'. congruence. }
  exact (proj1 S).
Qed.

Lemma getManager_outside_unit_of_work_is_default_witness :
  two_kinds !! 0 = Some plain_request /\ plain plain_request /\
  seen (shared (schedule interleaving (serve two_kinds (boot no_random))))
  = [(0, DefaultManager 0); (1, TxManager 0); (0, DefaultManager 1)] /\
  forall m,
    (0, m) ∈ seen (shared (schedule interleaving (serve two_kinds (boot no_random)))) ->
    (0, m) ∈ seen (boot no_random) \/ is_default m.
Proof.
  split; [reflexivity|]. split; [exact (fun _ _ _ _ => I)|].
  split; [vm_compute; reflexivity|].
  exact (@getManager_outside_unit_of_work_is_default Order two_kinds (boot no_random)
           interleaving 0 plain_request eq_refl (fun _ _ _ _ => I)).
Defined.
